(** * context_config: the range-keyed configuration store

    A shallow embedding of [IntervalConfig] from
    [src/context_config/context_config.py], together with the part of
    [BaseConfig] it inherits its indexing from, and the properties of the
    interval store that the specification states about it.

    Python objects are mutable; every method that mutates [self._tree] is
    embedded as a function from the tree before the call to the outcome of
    the call paired with the tree after it, so that the state left behind by
    a call that raises is visible too. *)

From Stdlib Require Import ZArith List String Ascii Bool Lia.
From Stdlib Require Import Permutation Sorted DecimalString DecimalZ.
Import ListNotations.

Open Scope string_scope.
Open Scope list_scope.
Open Scope Z_scope.

(** ** Outcomes of a Python call *)

(** The exception classes the embedded code can raise. *)
Inductive exn : Type :=
| KeyError
| ValueError
| TypeError
| IndexError
| AttributeError.

(** A call either returns a value or raises. *)
Inductive outcome (A : Type) : Type :=
| Return (a : A)
| Raise (e : exn).

Arguments Return {A} a.
Arguments Raise {A} e.

Definition bind {A B : Type} (m : outcome A) (k : A -> outcome B) : outcome B :=
  match m with
  | Return a => k a
  | Raise e => Raise e
  end.

Notation "x <- m ;; k" := (bind m (fun x => k))
  (at level 61, m at next level, right associativity).

(** [[f(x) for x in l]] for an [f] that may raise: the first exception wins. *)
Fixpoint mapM {A B : Type} (f : A -> outcome B) (l : list A) : outcome (list B) :=
  match l with
  | [] => Return []
  | a :: r => b <- f a ;; bs <- mapM f r ;; Return (b :: bs)
  end.

(** ** The Python built-ins the code calls *)

(** [str(n)] for an [int], as the f-string of [key_to_label] formats it:
    decimal digits, a leading [-] for a negative number, no leading zeros. *)
Definition py_str (n : Z) : string :=
  NilZero.string_of_int (Z.to_int n).

(** [s.split(sep)] for a one-character separator: every occurrence splits,
    so the result always has at least one piece. *)
Fixpoint py_split (sep : ascii) (s : string) : list string :=
  match s with
  | EmptyString => [EmptyString]
  | String c r =>
      if Ascii.eqb c sep then EmptyString :: py_split sep r
      else match py_split sep r with
           | h :: t => String c h :: t
           | [] => [String c EmptyString]
           end
  end.

(** The ASCII characters [int()] strips from both ends of its argument:
    the space and tab, line feed, vertical tab, form feed, carriage
    return. *)
Definition is_space (c : ascii) : bool :=
  let n := nat_of_ascii c in
  (Nat.eqb n 32 || (Nat.leb 9 n && Nat.leb n 13))%bool.

Fixpoint lstrip (l : list ascii) : list ascii :=
  match l with
  | c :: r => if is_space c then lstrip r else l
  | [] => []
  end.

Definition py_strip (l : list ascii) : list ascii :=
  rev (lstrip (rev (lstrip l))).

Definition is_digit (c : ascii) : bool :=
  let n := nat_of_ascii c in (Nat.leb 48 n && Nat.leb n 57)%bool.

(** The digit groups of an integer literal: a single underscore is allowed
    between two digits and is dropped; [prev] tells whether the previous
    character was a digit. *)
Fixpoint digit_groups (l : list ascii) (prev : bool) : option (list ascii) :=
  match l with
  | [] => if prev then Some [] else None
  | c :: r =>
      if is_digit c then option_map (cons c) (digit_groups r true)
      else if (Ascii.eqb c "_" && prev)%bool then digit_groups r false
      else None
  end.

Definition int_of_digits (l : list ascii) : option Z :=
  match digit_groups l false with
  | Some ds => option_map Z.of_uint (NilEmpty.uint_of_string (string_of_list_ascii ds))
  | None => None
  end.

(** [int(s)] for an ASCII [str] in base 10: surrounding whitespace is
    dropped, one sign is allowed, at least one digit is required; anything
    else raises [ValueError]. *)
Definition py_int (s : string) : outcome Z :=
  let body := py_strip (list_ascii_of_string s) in
  let parsed :=
    match body with
    | c :: r =>
        if Ascii.eqb c "-" then option_map Z.opp (int_of_digits r)
        else if Ascii.eqb c "+" then int_of_digits r
        else int_of_digits body
    | [] => None
    end in
  match parsed with
  | Some n => Return n
  | None => Raise ValueError
  end.

(** [list(range(start, stop, step))]; a zero step raises [ValueError]. *)
Definition py_range (start stop step : Z) : outcome (list Z) :=
  if step =? 0 then Raise ValueError
  else
    let n := if 0 <? step then (stop - start + step - 1) / step
             else (start - stop - step - 1) / (- step) in
    Return (map (fun i => start + Z.of_nat i * step) (seq 0 (Z.to_nat n))).

(** [zip(a, b, c)]: stops at the shortest of the three. *)
Fixpoint zip3 {A B C : Type} (a : list A) (b : list B) (c : list C)
  : list (A * B * C) :=
  match a, b, c with
  | x :: a', y :: b', z :: c' => (x, y, z) :: zip3 a' b' c'
  | _, _, _ => []
  end.

Example py_str_neg : py_str (-3) = "-3".
Proof. reflexivity. Qed.

Example py_split_neg : py_split "-" "-3-7" = [""; "3"; "7"].
Proof. reflexivity. Qed.

Example py_int_examples :
  py_int "42" = Return 42 /\ py_int " -1_000 " = Return (-1000) /\
  py_int "" = Raise ValueError /\ py_int "007" = Return 7 /\
  py_int "1__0" = Raise ValueError /\ py_int "3 7" = Raise ValueError.
Proof. repeat split; reflexivity. Qed.

Example py_range_examples :
  py_range 0 9 3 = Return [0; 3; 6] /\ py_range 0 10 3 = Return [0; 3; 6; 9] /\
  py_range 9 0 (-3) = Return [9; 6; 3] /\ py_range 5 5 1 = Return [] /\
  py_range 0 1 0 = Raise ValueError.
Proof. repeat split; reflexivity. Qed.

(** ** Stored values *)

(** The operations of a stored Python object that the code relies on:
    [==] and [<] (through the ordering of intervals), [bool()] (through
    [__contains__]), iteration (through the stepped [configure]) and
    subscripting (through the composite keys of [__getitem__]).  The
    development covers value types on which [<] is a strict total order, so
    that [sorted] has one result whatever order the underlying set is
    enumerated in. *)
Class PyValue (V : Type) : Type := {
  v_eqb : V -> V -> bool;
  v_ltb : V -> V -> bool;
  v_bool : V -> bool;
  v_iter : V -> outcome (list V);
  v_getitem : V -> Z -> outcome V;
  v_getitem_tuple : V -> list Z -> outcome V;
  v_eqb_eq : forall x y, v_eqb x y = true <-> x = y;
  v_ltb_irrefl : forall x, v_ltb x x = false;
  v_ltb_trans : forall x y z, v_ltb x y = true -> v_ltb y z = true -> v_ltb x z = true;
  v_ltb_total : forall x y, v_ltb x y = false -> v_ltb y x = false -> x = y
}.

(** ** The interval index *)

Module IntervalTree.
Section WithValue.
Context {V : Type} `{PyValue V}.

(** Modelled from the spec: [Interval] and [IntervalTree] come from the
    [intervaltree] package, which the repository imports and does not
    contain; the spec names it the interval index, a set of
    [(begin, end, value)] ranges with overlap queries and [chop].  The
    definitions of this module follow the behaviour of the package's
    methods that [IntervalConfig] calls.  An [Interval] is the named tuple
    [(begin, end, data)] of a half-open range and its value. *)
Record Interval : Type := mkInterval { begin : Z; end_ : Z; data : V }.

(** Modelled from the spec: [Interval.__eq__], equality of all three fields. *)
Definition Interval_eqb (a b : Interval) : bool :=
  (begin a =? begin b) && (end_ a =? end_ b) && v_eqb (data a) (data b).

(** Modelled from the spec: [Interval.__cmp__], which orders by
    [(begin, end)] and breaks ties by [data]. *)
Definition Interval_cmp (a b : Interval) : comparison :=
  match begin a ?= begin b with
  | Lt => Lt
  | Gt => Gt
  | Eq =>
      match end_ a ?= end_ b with
      | Lt => Lt
      | Gt => Gt
      | Eq => if v_eqb (data a) (data b) then Eq
              else if v_ltb (data a) (data b) then Lt else Gt
      end
  end.

(** Modelled from the spec: [Interval.__lt__]. *)
Definition Interval_lt (a b : Interval) : bool :=
  match Interval_cmp a b with Lt => true | _ => false end.

(** Modelled from the spec: [Interval.is_null], an empty or reversed range. *)
Definition is_null (iv : Interval) : bool := end_ iv <=? begin iv.

Definition contains_point (p : Z) (iv : Interval) : bool :=
  (begin iv <=? p) && (p <? end_ iv).

(** [sorted(...)] on intervals: a stable sort by [Interval.__lt__]. *)
Fixpoint insert_sorted (x : Interval) (l : list Interval) : list Interval :=
  match l with
  | [] => [x]
  | y :: r => if Interval_lt y x then y :: insert_sorted x r else x :: y :: r
  end.

Definition sorted (l : list Interval) : list Interval :=
  fold_right insert_sorted [] l.

(** Modelled from the spec: an [IntervalTree] is a mutable set of
    intervals.  It is represented by a duplicate-free list; the code never
    observes the enumeration order of the set, only membership and
    [sorted]. *)
Definition t : Type := list Interval.

Definition mem (iv : Interval) (tr : t) : bool := existsb (Interval_eqb iv) tr.

(** The tree as a piece of mutable state: a call returns or raises, and
    leaves a tree behind either way. *)
Definition M (A : Type) : Type := t -> outcome A * t.

Definition ret {A : Type} (a : A) : M A := fun tr => (Return a, tr).
Definition raise {A : Type} (e : exn) : M A := fun tr => (Raise e, tr).
Definition lift {A : Type} (o : outcome A) : M A := fun tr => (o, tr).
Definition read {A : Type} (f : t -> A) : M A := fun tr => (Return (f tr), tr).
Definition modify (f : t -> t) : M unit := fun tr => (Return tt, f tr).

Definition bindM {A B : Type} (m : M A) (k : A -> M B) : M B :=
  fun tr =>
    match m tr with
    | (Return a, tr') => k a tr'
    | (Raise e, tr') => (Raise e, tr')
    end.

(** [for x in l: body(x)], stopping at the first exception. *)
Fixpoint for_each {A : Type} (l : list A) (body : A -> M unit) : M unit :=
  match l with
  | [] => ret tt
  | a :: r => bindM (body a) (fun _ => for_each r body)
  end.

(** Modelled from the spec: [IntervalTree(intervals)] builds the set of the
    given intervals and rejects null ones with [ValueError]. *)
Definition init (ivs : list Interval) : outcome t :=
  if existsb is_null ivs then Raise ValueError
  else Return (fold_right (fun iv acc => if mem iv acc then acc else iv :: acc) [] ivs).

(** Modelled from the spec: [add] does nothing for an interval already
    present, rejects a null one and inserts any other. *)
Definition add (iv : Interval) : M unit :=
  fun tr =>
    if mem iv tr then (Return tt, tr)
    else if is_null iv then (Raise ValueError, tr)
    else (Return tt, iv :: tr).

(** Modelled from the spec: [addi(begin, end, data)]. *)
Definition addi (b e : Z) (d : V) : M unit := add (mkInterval b e d).

(** Modelled from the spec: [update(intervals)] adds each of them. *)
Definition update (ivs : list Interval) : M unit := for_each ivs add.

(** Modelled from the spec: [difference_update(other)] discards each of them. *)
Definition difference_update (other : list Interval) : M unit :=
  modify (filter (fun iv => negb (mem iv other))).

(** Modelled from the spec: [at(p)], the intervals that contain [p]. *)
Definition at_ (p : Z) (tr : t) : list Interval := filter (contains_point p) tr.

(** Modelled from the spec: [overlap(begin, end)], the intervals that meet
    the range; none when [begin >= end]. *)
Definition overlap (b e : Z) (tr : t) : list Interval :=
  if e <=? b then []
  else filter (fun iv => (begin iv <? e) && (b <? end_ iv)) tr.

(** Modelled from the spec: [envelop(begin, end)], the intervals that lie
    inside the range; none when [begin >= end]. *)
Definition envelop (b e : Z) (tr : t) : list Interval :=
  if e <=? b then []
  else filter (fun iv => (b <=? begin iv) && (end_ iv <=? e)) tr.

(** Modelled from the spec: [remove_envelop(begin, end)]. *)
Definition remove_envelop (b e : Z) : M unit :=
  fun tr => difference_update (envelop b e tr) tr.

(** Modelled from the spec: [chop(begin, end)] removes the range from the
    coverage: the intervals that reach into it from either side are cut
    back to the boundary, the ones inside it are removed. *)
Definition chop (b e : Z) : M unit :=
  fun tr =>
    let begin_hits := filter (fun iv => begin iv <? b) (at_ b tr) in
    let end_hits := filter (fun iv => e <? end_ iv) (at_ e tr) in
    let insertions :=
      map (fun iv => mkInterval (begin iv) b (data iv)) begin_hits ++
      map (fun iv => mkInterval e (end_ iv) (data iv)) end_hits in
    bindM (remove_envelop b e) (fun _ =>
    bindM (difference_update begin_hits) (fun _ =>
    bindM (difference_update end_hits) (fun _ =>
    update insertions))) tr.

Definition boundaries (tr : t) : list Z :=
  flat_map (fun iv => [begin iv; end_ iv]) tr.

(** Modelled from the spec: [begin()], the least boundary, [0] when empty. *)
Definition tree_begin (tr : t) : Z :=
  match boundaries tr with
  | [] => 0
  | x :: r => fold_right Z.min x r
  end.

(** Modelled from the spec: [end()], the greatest boundary, [0] when empty. *)
Definition tree_end (tr : t) : Z :=
  match boundaries tr with
  | [] => 0
  | x :: r => fold_right Z.max x r
  end.

End WithValue.
End IntervalTree.

Arguments IntervalTree.Interval V : clear implicits.
Arguments IntervalTree.t V : clear implicits.
Arguments IntervalTree.M V A : clear implicits.

Notation "x <~ m ;; k" := (IntervalTree.bindM m (fun x => k))
  (at level 61, m at next level, right associativity).

(** ** IntervalConfig *)

Module IntervalConfig.
Import IntervalTree.
Section WithValue.
Context {V : Type} `{PyValue V}.

(** The shapes of key the methods dispatch on.  Tuples and other iterables
    hold integers; a slice holds optional integers. *)
Inductive key : Type :=
| KStr (label : string)
| KInt (index : Z)
| KTuple (items : list Z)
| KSlice (start stop step : option Z)
| KList (indices : list Z)
| KOther.

(** What [lookup] can return: a stored value, a list of stored values, a
    list of clipped intervals, or [None]. *)
Inductive result : Type :=
| RValue (v : V)
| RList (vs : list V)
| RIntervals (ivs : list (Interval V))
| RNone.

(** [key_to_label]: [f"{key[0]}-{key[1]}"]. *)
Definition key_to_label (k : list Z) : outcome string :=
  match k with
  | k0 :: k1 :: _ => Return (py_str k0 ++ "-" ++ py_str k1)%string
  | _ => Raise IndexError
  end.

(** [label_to_key]: [tuple(map(int, label.split("-")))]. *)
Definition label_to_key (label : string) : outcome (list Z) :=
  mapM py_int (py_split "-" label).

(** The [start] and [end] properties. *)
Definition start (tr : t V) : Z := tree_begin tr.
Definition end_prop (tr : t V) : Z := tree_end tr.

(** [value]: the data of the lowest-sorted interval at [index]. *)
Definition value (index : Z) (tr : t V) : outcome V :=
  match sorted (at_ index tr) with
  | hit :: _ => Return (data hit)
  | [] => Raise KeyError
  end.

(** [values_at]: [[self.value(i) for i in indices]]. *)
Definition values_at (indices : list Z) (tr : t V) : outcome (list V) :=
  mapM (fun i => value i tr) indices.

(** [overlap]: the hits, each clipped to the window. *)
Definition overlap (b e : Z) (tr : t V) : list (Interval V) :=
  map (fun iv => mkInterval (Z.max (begin iv) b) (Z.min (end_ iv) e) (data iv))
      (sorted (IntervalTree.overlap b e tr)).

(** [overlap_content]: the value of a single hit, else the list of values. *)
Definition overlap_content (b e : Z) (tr : t V) : result :=
  match sorted (IntervalTree.overlap b e tr) with
  | [hit] => RValue (data hit)
  | hits => RList (map data hits)
  end.

(** [a or b] on an optional integer: [None] and [0] are falsy. *)
Definition or_default (a : option Z) (b : Z) : Z :=
  match a with
  | Some 0 | None => b
  | Some x => x
  end.

(** The branches of [lookup] after a string key has been decoded.  A string
    cannot reach this point through [lookup]; as an iterable it would be
    handed to [values_at], where the index compares its characters with
    integers. *)
Definition lookup_dispatch (k : key) (tr : t V) : outcome result :=
  match k with
  | KInt i => v <- value i tr ;; Return (RValue v)
  | KTuple [b; e] => Return (overlap_content b e tr)
  | KTuple l | KList l => vs <- values_at l tr ;; Return (RList vs)
  | KStr EmptyString => Return (RList [])
  | KStr _ => Raise TypeError
  | KSlice kstart kstop kstep =>
      let b := or_default kstart (start tr) in
      let e := or_default kstop (end_prop tr) in
      match kstep with
      | None => Return (RIntervals (overlap b e tr))
      | Some st => idx <- py_range b e st ;; vs <- values_at idx tr ;; Return (RList vs)
      end
  | KOther => Return RNone
  end.

(** [lookup]. *)
Definition lookup (k : key) (tr : t V) : outcome result :=
  match k with
  | KStr label => k' <- label_to_key label ;; lookup_dispatch (KTuple k') tr
  | _ => lookup_dispatch k tr
  end.

(** [set_interval]: chop the window out, then add the new interval. *)
Definition set_interval (b e : Z) (v : V) : M V unit :=
  _ <~ chop b e ;; addi b e v.

(** The tail of [configure], once [start], [stop] and [step] are known. *)
Definition paint (kstart kstop kstep : option Z) (v : V) : M V unit :=
  b <~ (match kstart with Some x => ret x | None => read start end) ;;
  e <~ (match kstop with Some x => ret x | None => read end_prop end) ;;
  match kstep with
  | None => set_interval b e v
  | Some st =>
      indices <~ lift (py_range b e st) ;;
      vals <~ lift (v_iter v) ;;
      for_each (zip3 (removelast indices) (tl indices) vals)
               (fun '(wb, we, val) => set_interval wb we val)
  end.

(** [configure]. *)
Definition configure_dispatch (k : key) (v : V) : M V unit :=
  match k with
  | KSlice kstart kstop kstep => paint kstart kstop kstep v
  | KTuple [kstart; kstop] => paint (Some kstart) (Some kstop) None v
  | KTuple [kstart; kstop; kstep] => paint (Some kstart) (Some kstop) (Some kstep) v
  | KTuple _ => raise ValueError
  | _ => raise TypeError
  end.

Definition configure (k : key) (v : V) : M V unit :=
  match k with
  | KStr label => k' <~ lift (label_to_key label) ;; configure_dispatch (KTuple k') v
  | _ => configure_dispatch k v
  end.

(** [delete]: the string branch only decodes; a slice has no [end]
    attribute. *)
Definition delete (k : key) : M V unit :=
  match k with
  | KStr label => _ <~ lift (label_to_key label) ;; ret tt
  | KTuple [b; e] => chop b e
  | KSlice _ _ _ => raise AttributeError
  | _ => raise TypeError
  end.

(** [bool(x)] on what [lookup] returns. *)
Definition result_bool (r : result) : bool :=
  match r with
  | RValue v => v_bool v
  | RList vs => negb (Nat.eqb (List.length vs) 0)
  | RIntervals ivs => negb (Nat.eqb (List.length ivs) 0)
  | RNone => false
  end.

(** Subscripting what [lookup] returned for the head of a composite key. *)
Definition subscript (r : result) (f : V -> outcome V) : outcome result :=
  match r with
  | RValue v => x <- f v ;; Return (RValue x)
  | _ => Raise TypeError
  end.

(** [BaseConfig.__getitem__]: a tuple is a composite key, its head is
    looked up and the rest subscripts the result. *)
Definition getitem (k : key) (tr : t V) : outcome result :=
  match k with
  | KTuple [k0] => lookup (KInt k0) tr
  | KTuple [k0; k1] =>
      r <- lookup (KInt k0) tr ;; subscript r (fun v => v_getitem v k1)
  | KTuple (k0 :: rest) =>
      r <- lookup (KInt k0) tr ;; subscript r (fun v => v_getitem_tuple v rest)
  | KTuple [] => Raise IndexError
  | _ => lookup k tr
  end.

(** [__contains__]: [bool(self[key])]. *)
Definition contains (k : key) (tr : t V) : outcome bool :=
  r <- getitem k tr ;; Return (result_bool r).

(** [__getstate__]: the sorted tuple of the stored triples.  Plain tuples
    compare field by field, which on a totally ordered value type is the
    order of [Interval.__lt__]. *)
Definition getstate (tr : t V) : list (Interval V) := sorted tr.

(** [__setstate__]: a new tree built from the triples. *)
Definition setstate (d : list (Interval V)) : M V unit :=
  fun tr =>
    match init d with
    | Return tr' => (Return tt, tr')
    | Raise e => (Raise e, tr)
    end.

End WithValue.
End IntervalConfig.

Arguments IntervalConfig.result V : clear implicits.


Import IntervalTree IntervalConfig.

(** ** Python dictionaries *)

(** A [dict] as the list of its items in insertion order: assigning to a
    key that is present replaces its value in place, assigning to a new key
    appends it. *)
Section PyDict.
Context {K A : Type} (key_eqb : K -> K -> bool).

Fixpoint dict_get (k : K) (d : list (K * A)) : option A :=
  match d with
  | [] => None
  | (k', a) :: r => if key_eqb k k' then Some a else dict_get k r
  end.

Fixpoint dict_set (k : K) (a : A) (d : list (K * A)) : list (K * A) :=
  match d with
  | [] => [(k, a)]
  | (k', a') :: r => if key_eqb k k' then (k', a) :: r else (k', a') :: dict_set k a r
  end.

(** A dict comprehension [{k: a for ...}] over the pairs in order. *)
Definition dict_of_pairs (l : list (K * A)) : list (K * A) :=
  fold_left (fun d kv => dict_set (fst kv) (snd kv) d) l [].

End PyDict.

(** ** IntervalConfig: views and item assignment *)

Module IntervalViews.
Section WithValue.
Context {V : Type} `{PyValue V}.

Definition pair_eqb (k k' : Z * Z) : bool :=
  (fst k =? fst k') && (snd k =? snd k').

(** [_keys]: the [(begin, end)] of each stored interval, in sorted order. *)
Definition _keys (tr : t V) : list (Z * Z) :=
  map (fun iv => (begin iv, end_ iv)) (sorted tr).

(** [items]: [((begin, end), data)] for each stored interval, sorted. *)
Definition items (tr : t V) : list ((Z * Z) * V) :=
  map (fun iv => ((begin iv, end_ iv), data iv)) (sorted tr).

(** [values]: the data of each stored interval, sorted. *)
Definition values (tr : t V) : list V := map data (sorted tr).

(** [__len__] and [__bool__]. *)
Definition len (tr : t V) : nat := List.length tr.
Definition bool_ (tr : t V) : bool := negb (Nat.eqb (len tr) 0).

(** [to_dict]: [{(iv.begin, iv.end): iv.data for iv in sorted(self._tree)}]. *)
Definition to_dict (tr : t V) : list ((Z * Z) * V) :=
  dict_of_pairs pair_eqb
    (map (fun iv => ((begin iv, end_ iv), data iv)) (sorted tr)).

(** [to_label_dict]:
    [{f"{iv.begin}-{iv.end}": iv.data for iv in sorted(self._tree)}]. *)
Definition to_label_dict (tr : t V) : list (string * V) :=
  dict_of_pairs String.eqb
    (map (fun iv => ((py_str (begin iv) ++ "-" ++ py_str (end_ iv))%string, data iv))
         (sorted tr)).

(** [BaseConfig.__setitem__] on a config without parent.  The head of a
    tuple key is an integer here and the keys are pairs, so
    [key[0] in self.keys()] compares an integer with tuples and is false;
    without a parent the tuple branch then raises [KeyError].  An empty
    tuple has no head.  Any other key goes to [configure]. *)
Definition setitem (k : key) (v : V) : M V unit :=
  match k with
  | KTuple [] => raise IndexError
  | KTuple (_ :: _) => raise KeyError
  | _ => configure k v
  end.

End WithValue.
End IntervalViews.

(** ** BaseConfig and DictConfig *)

Module DictConfig.
Section WithTypes.

(** Keys are names, Python strings, as the attribute-style access of
    [__getattr__] and [__dir__] takes them.  A stored value is an object,
    taken by identity: a dict binds names to objects, and what an object
    holds lives in the heap, so that an item assignment made through one
    name is seen through every name bound to the same object. *)
Context {V Heap : Type}.

Definition Name : Type := string.
Definition name_eqb : Name -> Name -> bool := String.eqb.

(** Subscripting a stored object, for composite keys: [obj[k]] and
    [obj[k1:]] read the heap, the two assignments change it. *)
Variable item_get : V -> Name -> Heap -> outcome V.
Variable item_get_tuple : V -> list Name -> Heap -> outcome V.
Variable item_set : V -> Name -> V -> Heap -> outcome Heap.
Variable item_set_tuple : V -> list Name -> V -> Heap -> outcome Heap.

(** One scope: the [_attrs] dict of a [DictConfig]. *)
Definition attrs : Type := list (Name * V).

(** A config with its ancestors: its own [_attrs] first, then its
    parent's, and so on to the root, whose [parent] is [None].  The empty
    chain stands for the missing parent of the root. *)
Definition config : Type := list attrs.

(** A key is a name or a tuple of parts. *)
Inductive dkey : Type :=
| DName (n : Name)
| DTuple (parts : list Name).

(** [DictConfig.lookup]: own binding, else the parent's lookup, else
    [KeyError]. *)
Fixpoint lookup (c : config) (n : Name) : outcome V :=
  match c with
  | [] => Raise KeyError
  | a :: p =>
      match dict_get name_eqb n a with
      | Some v => Return v
      | None => lookup p n
      end
  end.

(** [DictConfig.configure]: [self._attrs[key] = value]. *)
Definition configure (n : Name) (v : V) (c : config) : config :=
  match c with
  | a :: p => dict_set name_eqb n v a :: p
  | [] => []
  end.

Definition name_mem (n : Name) (l : list Name) : bool := existsb (name_eqb n) l.

(** [DictConfig._keys]: the names bound in this scope. *)
Definition _keys (a : attrs) : list Name := map fst a.

(** [BaseConfig.keys]: the set of own names, updated with the parent's
    keys, as a list. *)
Fixpoint keys (c : config) : list Name :=
  match c with
  | [] => []
  | a :: p =>
      fold_right (fun n acc => if name_mem n acc then acc else n :: acc)
                 (keys p) (_keys a)
  end.

(** [BaseConfig.__contains__]: [key in self.keys()]. *)
Definition contains (c : config) (n : Name) : bool := name_mem n (keys c).

(** [BaseConfig.items]: [[(k, self.lookup(k)) for k in self.keys()]]. *)
Definition items (c : config) : outcome (list (Name * V)) :=
  mapM (fun n => v <- lookup c n ;; Return (n, v)) (keys c).

(** [BaseConfig.__getitem__]. *)
Definition getitem (c : config) (k : dkey) (h : Heap) : outcome V :=
  match k with
  | DName n => lookup c n
  | DTuple [] => Raise IndexError
  | DTuple [k0] => lookup c k0
  | DTuple [k0; k1] => obj <- lookup c k0 ;; item_get obj k1 h
  | DTuple (k0 :: rest) => obj <- lookup c k0 ;; item_get_tuple obj rest h
  end.

(** The tuple branch of [BaseConfig.__setitem__]: a known head is bound
    here, or the object it names is assigned to, which changes the heap
    and no binding; an unknown head is handed to the parent, and raises at
    the root. *)
Fixpoint setitem_tuple (c : config) (k0 : Name) (rest : list Name) (v : V)
  (h : Heap) : outcome (config * Heap) :=
  match c with
  | [] => Raise KeyError
  | a :: p =>
      if contains (a :: p) k0 then
        match rest with
        | [] => Return (configure k0 v (a :: p), h)
        | [k1] =>
            obj <- lookup (a :: p) k0 ;;
            h' <- item_set obj k1 v h ;;
            Return (a :: p, h')
        | _ =>
            obj <- lookup (a :: p) k0 ;;
            h' <- item_set_tuple obj rest v h ;;
            Return (a :: p, h')
        end
      else
        r <- setitem_tuple p k0 rest v h ;; Return (a :: fst r, snd r)
  end.

(** [BaseConfig.__setitem__]: the config and the heap after the call. *)
Definition setitem (c : config) (k : dkey) (v : V) (h : Heap)
  : outcome (config * Heap) :=
  match k with
  | DName n => Return (configure n v c, h)
  | DTuple [] => Raise IndexError
  | DTuple (k0 :: rest) => setitem_tuple c k0 rest v h
  end.

End WithTypes.
End DictConfig.

Arguments DictConfig.attrs V : clear implicits.
Arguments DictConfig.config V : clear implicits.

(** ** The vocabulary of the properties *)

(** A string of decimal digits. *)
Definition all_digits (l : list ascii) : Prop := forallb is_digit l = true.

Section Vocabulary.
Context {V : Type} `{PyValue V}.

Implicit Types (a iv : Interval V) (tr : t V) (b e p : Z) (v : V).

(** [ile a a']: [a'] does not sort strictly before [a]. *)
Definition ile (a a' : Interval V) : Prop := Interval_lt a' a = false.

(** [covers tr p v]: some stored interval contains [p] and carries [v]. *)
Definition covers tr p (v : V) : Prop :=
  exists iv, In iv tr /\ begin iv <= p < end_ iv /\ data iv = v.

(** No two distinct stored intervals share a point. *)
Definition non_overlapping tr : Prop :=
  forall a a', In a tr -> In a' tr -> a <> a' ->
               end_ a <= begin a' \/ end_ a' <= begin a.

(** What the library guarantees of every tree: a set of non-null intervals. *)
Definition well_formed tr : Prop :=
  NoDup tr /\ Forall (fun iv => begin iv < end_ iv) tr.

(** Membership in the tree that [chop b e] leaves behind. *)
Definition chop_member b e tr iv' : Prop :=
  (In iv' tr /\ ~ (b < e /\ b <= begin iv' /\ end_ iv' <= e) /\
   ~ (begin iv' < b < end_ iv') /\ ~ (begin iv' <= e < end_ iv')) \/
  (exists iv, In iv tr /\ begin iv < b < end_ iv /\
              iv' = mkInterval (begin iv) b (data iv)) \/
  (exists iv, In iv tr /\ begin iv <= e < end_ iv /\
              iv' = mkInterval e (end_ iv) (data iv)).

(** The tree after [chop b e], as a function of the tree before. *)
Definition chopped b e tr : t V := snd (chop b e tr).

(** The tree after [set_interval b e v]. *)
Definition painted b e v tr : t V := snd (set_interval b e v tr).

(** The loop of the stepped [configure]. *)
Definition paint_each (l : list (Z * Z * V)) : M V unit :=
  for_each l (fun '(wb, we, val) => set_interval wb we val).

(** The start, stop and step that [configure] reads off a key that carries
    a step: a three-part tuple, a slice with a step, whose missing start
    or stop is the begin or the end of the tree, or a label that decodes
    to three numbers. *)
Definition stepped_window tr (k : key) : option (Z * Z * Z) :=
  match k with
  | KTuple [kstart; kstop; kstep] => Some (kstart, kstop, kstep)
  | KSlice kstart kstop (Some kstep) =>
      Some (match kstart with Some x => x | None => IntervalConfig.start tr end,
            match kstop with Some x => x | None => end_prop tr end,
            kstep)
  | KStr label =>
      match label_to_key label with
      | Return [kstart; kstop; kstep] => Some (kstart, kstop, kstep)
      | _ => None
      end
  | _ => None
  end.

(** Painting the values [vals] in order on consecutive windows of width
    [step] from [b] on, [cnt] windows at most: the first value on
    [[b, b + step)], the second on [[b + step, b + 2 * step)], and so on,
    until the windows or the values run out. *)
Fixpoint paint_in_order (b step : Z) (vals : list V) (cnt : nat) tr
  {struct cnt} : t V :=
  match cnt, vals with
  | S cnt', x :: vals' =>
      paint_in_order (b + step) step vals' cnt' (painted b (b + step) x tr)
  | _, _ => tr
  end.

(** The stored intervals that meet [[b, e)]. *)
Definition meets (b e : Z) iv : bool :=
  (b <? e) && (begin iv <? e) && (b <? end_ iv).

(** At every point, the stored intervals that cover it carry one value. *)
Definition single_valued tr : Prop :=
  forall p w w', covers tr p w -> covers tr p w' -> w = w'.

(** The order of the snapshot: by [begin], then by [end]. *)
Definition key_le (a a' : Interval V) : Prop :=
  begin a < begin a' \/ (begin a = begin a' /\ end_ a <= end_ a').

(** The configs that a sequence of [configure] and [delete] calls builds
    from the empty one; a call that raises still leaves a state behind. *)
Inductive reachable : t V -> Prop :=
| reach_empty : reachable []
| reach_configure tr k v : reachable tr -> reachable (snd (configure k v tr))
| reach_delete tr k : reachable tr -> reachable (snd (delete k tr)).

(** [preserves P m]: the call [m] keeps [P] of the tree, whether it returns
    or raises. *)
Definition preserves (P : t V -> Prop) {A : Type} (m : M V A) : Prop :=
  forall tr, P tr -> P (snd (m tr)).

End Vocabulary.

(** ** Facts about the interval order and [sorted] *)

Section OrderFacts.
Context {V : Type} `{PyValue V}.

Implicit Types (a b c iv : Interval V) (l tr : list (Interval V)).

Lemma v_eqb_refl (x : V) : v_eqb x x = true.
Proof. now apply v_eqb_eq. Qed.

Lemma Interval_eqb_eq a b : Interval_eqb a b = true <-> a = b.
Proof.
  unfold Interval_eqb. rewrite !andb_true_iff, !Z.eqb_eq, v_eqb_eq.
  destruct a, b; simpl. split.
  - intros [[-> ->] ->]. reflexivity.
  - intros E. inversion E. auto.
Qed.

Lemma mem_In iv tr : mem iv tr = true <-> In iv tr.
Proof.
  unfold mem. rewrite existsb_exists. split.
  - intros [x [Hin E]]. apply Interval_eqb_eq in E. now subst.
  - intros Hin. exists iv. split; [assumption|]. now apply Interval_eqb_eq.
Qed.

Lemma mem_false iv tr : mem iv tr = false <-> ~ In iv tr.
Proof.
  rewrite <- mem_In. destruct (mem iv tr); split; congruence.
Qed.

(** [Interval.__lt__] is the lexicographic order on [(begin, end, data)]. *)
Lemma Interval_lt_iff a b :
  Interval_lt a b = true <->
  begin a < begin b \/
  (begin a = begin b /\
   (end_ a < end_ b \/ (end_ a = end_ b /\ v_ltb (data a) (data b) = true))).
Proof.
  unfold Interval_lt, Interval_cmp.
  destruct (Z.compare_spec (begin a) (begin b)) as [E1|L1|G1].
  - destruct (Z.compare_spec (end_ a) (end_ b)) as [E2|L2|G2].
    + destruct (v_eqb (data a) (data b)) eqn:Ed.
      * apply v_eqb_eq in Ed. rewrite Ed, v_ltb_irrefl.
        split; [discriminate|]. intros [?|[_ [?|[_ ?]]]]; try lia; discriminate.
      * destruct (v_ltb (data a) (data b)); split; try discriminate; auto.
        intros [?|[_ [?|[_ ?]]]]; try lia; discriminate.
    + split; auto.
    + split; [discriminate|]. intros [?|[_ [?|[? _]]]]; lia.
  - split; auto.
  - split; [discriminate|]. intros [?|[? _]]; lia.
Qed.

Lemma Interval_lt_asym a b : Interval_lt a b = true -> Interval_lt b a = false.
Proof.
  intros L. destruct (Interval_lt b a) eqn:G; [|reflexivity].
  apply Interval_lt_iff in L, G.
  destruct L as [?|[? [?|[? L]]]], G as [?|[? [?|[? G]]]]; try lia.
  pose proof (v_ltb_trans _ _ _ L G) as T. rewrite v_ltb_irrefl in T. discriminate.
Qed.

Lemma Interval_lt_trans a b c :
  Interval_lt a b = true -> Interval_lt b c = true -> Interval_lt a c = true.
Proof.
  rewrite !Interval_lt_iff.
  intros [?|[? [?|[? L]]]] [?|[? [?|[? G]]]]; try (left; lia);
    try (right; split; [lia|left; lia]).
  right. split; [lia|]. right. split; [lia|]. eapply v_ltb_trans; eassumption.
Qed.

Lemma Interval_lt_total a b :
  Interval_lt a b = false -> Interval_lt b a = false -> a = b.
Proof.
  intros N1 N2.
  assert (B : begin a = begin b).
  { destruct (Z.lt_trichotomy (begin a) (begin b)) as [L|[E|G]]; [|assumption|].
    - assert (T : Interval_lt a b = true) by (apply Interval_lt_iff; auto). congruence.
    - assert (T : Interval_lt b a = true) by (apply Interval_lt_iff; auto). congruence. }
  assert (E : end_ a = end_ b).
  { destruct (Z.lt_trichotomy (end_ a) (end_ b)) as [L|[E|G]]; [|assumption|].
    - assert (T : Interval_lt a b = true) by (apply Interval_lt_iff; auto). congruence.
    - assert (T : Interval_lt b a = true) by (apply Interval_lt_iff; right; auto).
      congruence. }
  assert (D : data a = data b).
  { apply v_ltb_total.
    - destruct (v_ltb (data a) (data b)) eqn:L; [|reflexivity].
      assert (T : Interval_lt a b = true) by (apply Interval_lt_iff; auto). congruence.
    - destruct (v_ltb (data b) (data a)) eqn:L; [|reflexivity].
      assert (T : Interval_lt b a = true) by (apply Interval_lt_iff; right; auto).
      congruence. }
  destruct a, b; simpl in *; congruence.
Qed.

Lemma ile_trans a b c : ile a b -> ile b c -> ile a c.
Proof.
  unfold ile. intros Hab Hbc.
  destruct (Interval_lt c a) eqn:Hca; [|reflexivity].
  destruct (Interval_lt a b) eqn:Lab.
  - pose proof (Interval_lt_trans _ _ _ Hca Lab). congruence.
  - pose proof (Interval_lt_total _ _ Lab Hab). subst. congruence.
Qed.

Lemma ile_begin a b : ile a b -> begin a <= begin b.
Proof.
  unfold ile. intros N.
  destruct (Z.le_gt_cases (begin a) (begin b)) as [L|G]; [assumption|].
  assert (T : Interval_lt b a = true) by (apply Interval_lt_iff; left; lia).
  congruence.
Qed.

Lemma insert_sorted_perm iv l : Permutation (insert_sorted iv l) (iv :: l).
Proof.
  induction l as [|y r IH]; simpl; [reflexivity|].
  destruct (Interval_lt y iv); [|reflexivity].
  rewrite IH. apply perm_swap.
Qed.

Lemma sorted_perm l : Permutation (sorted l) l.
Proof.
  induction l as [|x r IH]; simpl; [reflexivity|].
  rewrite insert_sorted_perm. now constructor.
Qed.

Lemma insert_sorted_sorted iv l :
  StronglySorted ile l -> StronglySorted ile (insert_sorted iv l).
Proof.
  induction 1 as [|y r Hr IH Hy]; simpl.
  - repeat constructor.
  - destruct (Interval_lt y iv) eqn:L.
    + constructor; [assumption|].
      rewrite Forall_forall in *. intros z Hz.
      apply (Permutation_in _ (insert_sorted_perm iv r)) in Hz.
      destruct Hz as [<-|Hz]; [|auto].
      now apply Interval_lt_asym.
    + constructor; [now constructor|].
      constructor; [exact L|].
      rewrite Forall_forall in *. intros z Hz.
      apply ile_trans with y; [exact L|auto].
Qed.

Lemma sorted_sorted l : StronglySorted ile (sorted l).
Proof.
  induction l as [|x r IH]; simpl; [constructor|].
  now apply insert_sorted_sorted.
Qed.

(** A sorted enumeration is determined by the set it enumerates. *)
Lemma sorted_unique l1 :
  forall l2, StronglySorted ile l1 -> StronglySorted ile l2 ->
             Permutation l1 l2 -> l1 = l2.
Proof.
  induction l1 as [|x r IH]; intros l2 S1 S2 P.
  - apply Permutation_nil in P. now subst.
  - destruct l2 as [|y r2].
    + apply Permutation_sym, Permutation_nil in P. discriminate.
    + inversion S1 as [|? ? Sr Fx]; subst. inversion S2 as [|? ? Sr2 Fy]; subst.
      rewrite Forall_forall in Fx, Fy.
      assert (x = y) as ->.
      { assert (Hy : In y (x :: r)) by (eapply Permutation_in; [symmetry; eassumption|now left]).
        assert (Hx : In x (y :: r2)) by (eapply Permutation_in; [eassumption|now left]).
        destruct Hy as [->|Hy]; [reflexivity|].
        destruct Hx as [->|Hx]; [reflexivity|].
        apply Interval_lt_total; [apply (Fy _ Hx)|apply (Fx _ Hy)]. }
      f_equal. apply IH; try assumption.
      eapply Permutation_cons_inv; eassumption.
Qed.

Lemma sorted_perm_eq l1 l2 : Permutation l1 l2 -> sorted l1 = sorted l2.
Proof.
  intros P. apply sorted_unique; try apply sorted_sorted.
  rewrite !sorted_perm. exact P.
Qed.

Lemma sorted_nil_iff l : sorted l = [] <-> l = [].
Proof.
  split; [|now intros ->].
  intros E. pose proof (sorted_perm l) as P. rewrite E in P.
  now apply Permutation_nil in P.
Qed.

End OrderFacts.

(** ** Facts about the interval index *)

Section TreeFacts.
Context {V : Type} `{PyValue V}.

Implicit Types (a iv : Interval V) (l tr : t V) (b e p : Z).

Lemma In_at iv p tr : In iv (at_ p tr) <-> In iv tr /\ begin iv <= p < end_ iv.
Proof.
  unfold at_, contains_point. rewrite filter_In, andb_true_iff, Z.leb_le, Z.ltb_lt.
  tauto.
Qed.

Lemma In_envelop iv b e tr :
  In iv (envelop b e tr) <-> In iv tr /\ b < e /\ b <= begin iv /\ end_ iv <= e.
Proof.
  unfold envelop. destruct (Z.leb_spec e b).
  - simpl. split; [tauto|]. intros (_ & ? & _). lia.
  - rewrite filter_In, andb_true_iff, !Z.leb_le. tauto.
Qed.

Lemma In_begin_hits iv b tr :
  In iv (filter (fun iv => begin iv <? b) (at_ b tr)) <->
  In iv tr /\ begin iv < b < end_ iv.
Proof. rewrite filter_In, In_at, Z.ltb_lt. intuition lia. Qed.

Lemma In_end_hits iv e tr :
  In iv (filter (fun iv => e <? end_ iv) (at_ e tr)) <->
  In iv tr /\ begin iv <= e < end_ iv.
Proof. rewrite filter_In, In_at, Z.ltb_lt. intuition lia. Qed.

Lemma In_difference iv (other : list (Interval V)) tr :
  In iv (filter (fun iv => negb (mem iv other)) tr) <-> In iv tr /\ ~ In iv other.
Proof.
  rewrite filter_In, negb_true_iff, mem_false. tauto.
Qed.

Lemma add_spec iv tr :
  begin iv < end_ iv ->
  exists tr', add iv tr = (Return tt, tr') /\
              (forall iv', In iv' tr' <-> iv' = iv \/ In iv' tr) /\
              (NoDup tr -> NoDup tr').
Proof.
  intros Hnn. unfold add. destruct (mem iv tr) eqn:Hm.
  - exists tr. split; [reflexivity|]. split; [|auto].
    apply mem_In in Hm. intros iv'. split; [auto|]. intros [->|?]; assumption.
  - unfold is_null. destruct (Z.leb_spec (end_ iv) (begin iv)); [lia|].
    exists (iv :: tr). split; [reflexivity|]. split.
    + intros iv'. simpl. intuition congruence.
    + intros ND. constructor; [|assumption]. now apply mem_false.
Qed.

Lemma update_spec (ivs : list (Interval V)) :
  forall tr, Forall (fun iv => begin iv < end_ iv) ivs ->
  exists tr', update ivs tr = (Return tt, tr') /\
              (forall iv', In iv' tr' <-> In iv' ivs \/ In iv' tr) /\
              (NoDup tr -> NoDup tr').
Proof.
  induction ivs as [|iv r IH]; intros tr Hnn.
  - exists tr. split; [reflexivity|]. split; [simpl; tauto|auto].
  - inversion Hnn as [|? ? Hiv Hr]; subst.
    destruct (add_spec iv tr Hiv) as (tr1 & E1 & M1 & N1).
    destruct (IH tr1 Hr) as (tr2 & E2 & M2 & N2).
    exists tr2. split; [|split].
    + unfold update in *. simpl. unfold bindM. now rewrite E1.
    + intros iv'. rewrite M2, M1. simpl. intuition congruence.
    + auto.
Qed.

(** [chop] never raises, and leaves exactly the members [chop_member]
    describes. *)
Lemma chop_spec b e tr :
  exists tr', chop b e tr = (Return tt, tr') /\
              (forall iv', In iv' tr' <-> chop_member b e tr iv') /\
              (NoDup tr -> NoDup tr').
Proof.
  unfold chop, remove_envelop, difference_update, modify, bindM.
  set (begin_hits := filter (fun iv => begin iv <? b) (at_ b tr)).
  set (end_hits := filter (fun iv => e <? end_ iv) (at_ e tr)).
  set (rest := filter _ (filter _ (filter _ tr))).
  set (insertions := _ ++ _).
  assert (Hnn : Forall (fun iv => begin iv < end_ iv) insertions).
  { apply Forall_forall. intros iv Hin. unfold insertions in Hin.
    apply in_app_iff in Hin. destruct Hin as [Hin|Hin];
      apply in_map_iff in Hin; destruct Hin as (x & <- & Hx); simpl.
    - apply In_begin_hits in Hx. lia.
    - apply In_end_hits in Hx. lia. }
  destruct (update_spec insertions rest Hnn) as (tr' & E & M & N).
  exists tr'. split; [exact E|]. split.
  - intros iv'. rewrite M. unfold insertions, rest, chop_member.
    rewrite in_app_iff, !in_map_iff, !In_difference, In_envelop.
    unfold begin_hits, end_hits.
    setoid_rewrite In_begin_hits. setoid_rewrite In_end_hits.
    split.
    + intros [[(x & <- & Hx & Hb)|(x & <- & Hx & He)]|(((Hin & Nenv) & Nb) & Ne)].
      * right. left. exists x. auto.
      * right. right. exists x. auto.
      * left. split; [assumption|]. split; [|split]; intros C.
        -- apply Nenv. tauto.
        -- apply Nb. tauto.
        -- apply Ne. tauto.
    + intros [(Hin & Nenv & Nb & Ne)|[(x & Hx & Hb & ->)|(x & Hx & He & ->)]].
      * right. repeat split; try assumption; intros C.
        -- apply Nenv. tauto.
        -- apply Nb. tauto.
        -- apply Ne. tauto.
      * left. left. exists x. auto.
      * left. right. exists x. auto.
  - intros ND. apply N. unfold rest. repeat apply NoDup_filter. exact ND.
Qed.

Lemma chop_eq b e tr : chop b e tr = (Return tt, chopped b e tr).
Proof.
  unfold chopped. destruct (chop_spec b e tr) as (tr' & E & _). now rewrite E.
Qed.

Lemma In_chopped b e tr iv' : In iv' (chopped b e tr) <-> chop_member b e tr iv'.
Proof.
  unfold chopped. destruct (chop_spec b e tr) as (tr' & E & M & _).
  rewrite E. apply M.
Qed.

Lemma chopped_NoDup b e tr : NoDup tr -> NoDup (chopped b e tr).
Proof.
  unfold chopped. destruct (chop_spec b e tr) as (tr' & E & _ & N).
  rewrite E. apply N.
Qed.

(** [chop] on a proper window removes the coverage inside it and nothing
    else. *)
Lemma chopped_covers b e tr p v :
  b <= e ->
  (covers (chopped b e tr) p v <-> covers tr p v /\ ~ (b <= p < e)).
Proof.
  intros Hbe. unfold covers. split.
  - intros (iv' & Hin & Hp & Hd). apply In_chopped in Hin.
    destruct Hin as [(Hin & Nenv & Nb & Ne)|[(x & Hx & Hb & ->)|(x & Hx & He & ->)]];
      simpl in *.
    + split; [exists iv'; auto|]. intros C.
      destruct (Z.lt_ge_cases (begin iv') b); [apply Nb; lia|].
      destruct (Z.le_gt_cases (end_ iv') e); [apply Nenv; lia|apply Ne; lia].
    + split; [exists x; repeat split; auto; lia|lia].
    + split; [exists x; repeat split; auto; lia|lia].
  - intros [(iv & Hin & Hp & Hd) Nw].
    destruct (Z.lt_ge_cases p b) as [Hlt|Hge].
    + destruct (Z.lt_ge_cases b (end_ iv)).
      * exists (mkInterval (begin iv) b (data iv)). simpl. repeat split; auto; try lia.
        apply In_chopped. right. left. exists iv. repeat split; auto; lia.
      * exists iv. repeat split; auto; try lia.
        apply In_chopped. left. repeat split; auto; lia.
    + assert (e <= p) by lia.
      destruct (Z.le_gt_cases (begin iv) e).
      * exists (mkInterval e (end_ iv) (data iv)). simpl. repeat split; auto; try lia.
        apply In_chopped. right. right. exists iv. repeat split; auto; lia.
      * exists iv. repeat split; auto; try lia.
        apply In_chopped. left. repeat split; auto; lia.
Qed.

End TreeFacts.

(** ** Facts about point queries and painting *)

Section PaintFacts.
Context {V : Type} `{PyValue V}.

Implicit Types (a iv : Interval V) (tr : t V) (b e p : Z) (v w : V).

Lemma value_hit p tr :
  match sorted (at_ p tr) with
  | hit :: _ => value p tr = Return (data hit) /\ In hit tr /\ begin hit <= p < end_ hit
  | [] => value p tr = Raise KeyError /\ forall iv, In iv tr -> ~ begin iv <= p < end_ iv
  end.
Proof.
  unfold value. destruct (sorted (at_ p tr)) as [|hit r] eqn:E.
  - split; [reflexivity|]. apply (proj1 (sorted_nil_iff _)) in E.
    intros iv Hin Hp. assert (In iv (at_ p tr)) as C by (apply In_at; auto).
    rewrite E in C. destruct C.
  - split; [reflexivity|]. apply In_at.
    apply (Permutation_in _ (sorted_perm (at_ p tr))). rewrite E. now left.
Qed.

Lemma value_Return_covers p tr v : value p tr = Return v -> covers tr p v.
Proof.
  intros E. pose proof (value_hit p tr) as Hh.
  destruct (sorted (at_ p tr)) as [|hit r].
  - destruct Hh as [E' _]. congruence.
  - destruct Hh as (E' & Hin & Hp). exists hit. repeat split; try tauto. congruence.
Qed.

Lemma value_KeyError_iff p tr :
  value p tr = Raise KeyError <-> forall v, ~ covers tr p v.
Proof.
  pose proof (value_hit p tr) as Hh.
  destruct (sorted (at_ p tr)) as [|hit r].
  - destruct Hh as [E N]. split; [|auto].
    intros _ v (iv & Hin & Hp & _). exact (N iv Hin Hp).
  - destruct Hh as (E & Hin & Hp). split; [congruence|].
    intros N. exfalso. apply (N (data hit)). exists hit. auto.
Qed.

Lemma value_cases p tr :
  (exists v, value p tr = Return v) \/ value p tr = Raise KeyError.
Proof.
  unfold value. destruct (sorted (at_ p tr)); eauto.
Qed.

(** Where every covering interval carries the same value, the point query
    returns it. *)
Lemma value_of_covers p tr v :
  covers tr p v -> (forall w, covers tr p w -> w = v) -> value p tr = Return v.
Proof.
  intros C U. destruct (value_cases p tr) as [[w E]|E].
  - rewrite E. f_equal. apply U. now apply value_Return_covers.
  - exfalso. exact (proj1 (value_KeyError_iff p tr) E v C).
Qed.

(** Point queries that see the same coverage, functional at the point,
    agree. *)
Lemma value_ext p tr tr' :
  (forall w, covers tr' p w <-> covers tr p w) ->
  (forall w w', covers tr p w -> covers tr p w' -> w = w') ->
  value p tr' = value p tr.
Proof.
  intros Hc U. destruct (value_cases p tr) as [[v E]|E].
  - rewrite E. apply value_of_covers.
    + apply Hc. now apply value_Return_covers.
    + intros w Hw. apply Hc in Hw. apply (U w v Hw). now apply value_Return_covers.
  - rewrite E. apply value_KeyError_iff.
    intros v C. apply Hc in C. exact (proj1 (value_KeyError_iff p tr) E v C).
Qed.

(** Whatever [chop b e] leaves lies outside a proper window. *)
Lemma chop_member_outside b e tr iv :
  b <= e -> chop_member b e tr iv -> end_ iv <= b \/ e <= begin iv.
Proof.
  intros Hbe [(Hin & Nenv & Nb & Ne)|[(x & Hx & Hb & ->)|(x & Hx & He & ->)]];
    simpl; lia.
Qed.

(** Every interval [chop] leaves is a piece of a stored one. *)
Lemma chop_member_origin b e tr iv :
  chop_member b e tr iv ->
  exists o, In o tr /\ begin o <= begin iv /\ end_ iv <= end_ o /\ data iv = data o /\
            (iv = o \/ begin iv < end_ iv).
Proof.
  intros [(Hin & _)|[(x & Hx & Hb & ->)|(x & Hx & He & ->)]]; simpl.
  - exists iv. repeat split; auto; lia.
  - exists x. repeat split; auto; simpl; lia.
  - exists x. repeat split; auto; simpl; lia.
Qed.

(** [set_interval] on a proper window returns, and leaves the chopped tree
    plus the new interval. *)
Lemma set_interval_spec b e v tr :
  b < e ->
  exists tr', set_interval b e v tr = (Return tt, tr') /\
              (forall iv, In iv tr' <-> iv = mkInterval b e v \/ chop_member b e tr iv) /\
              (NoDup tr -> NoDup tr').
Proof.
  intros Hbe. unfold set_interval, bindM. rewrite chop_eq.
  destruct (add_spec (mkInterval b e v) (chopped b e tr)) as (tr' & E & M & N);
    [simpl; lia|].
  exists tr'. split; [exact E|]. split.
  - intros iv. rewrite M, In_chopped. tauto.
  - intros ND. apply N. now apply chopped_NoDup.
Qed.

Lemma set_interval_eq b e v tr :
  b < e -> set_interval b e v tr = (Return tt, painted b e v tr).
Proof.
  intros Hbe. unfold painted.
  destruct (set_interval_spec b e v tr Hbe) as (tr' & E & _). now rewrite E.
Qed.

Lemma In_painted b e v tr iv :
  b < e ->
  (In iv (painted b e v tr) <-> iv = mkInterval b e v \/ chop_member b e tr iv).
Proof.
  intros Hbe. unfold painted.
  destruct (set_interval_spec b e v tr Hbe) as (tr' & E & M & _).
  rewrite E. apply M.
Qed.

Lemma painted_covers b e v tr p w :
  b < e ->
  (covers (painted b e v tr) p w <->
   (b <= p < e /\ w = v) \/ (~ b <= p < e /\ covers tr p w)).
Proof.
  intros Hbe. split.
  - intros (iv & Hin & Hp & Hd). apply In_painted in Hin; [|assumption].
    destruct Hin as [->|Hm].
    + left. simpl in *. split; [lia|congruence].
    + right. assert (C : covers (chopped b e tr) p w).
      { exists iv. split; [now apply In_chopped|auto]. }
      apply chopped_covers in C; [tauto|lia].
  - intros [[Hp ->]|[Hp C]].
    + exists (mkInterval b e v). split; [apply In_painted; auto|]. simpl. auto.
    + assert (C' : covers (chopped b e tr) p w) by (apply chopped_covers; [lia|tauto]).
      destruct C' as (iv & Hin & Hiv). exists iv. split; [|exact Hiv].
      apply In_painted; [assumption|]. right. now apply In_chopped.
Qed.

Lemma painted_non_overlapping b e v tr :
  b < e -> non_overlapping tr -> non_overlapping (painted b e v tr).
Proof.
  intros Hbe NO x y Hx Hy Hne.
  apply In_painted in Hx, Hy; try assumption.
  destruct Hx as [->|Mx], Hy as [->|My].
  - congruence.
  - simpl. pose proof (chop_member_outside b e tr y (Z.lt_le_incl _ _ Hbe) My). lia.
  - simpl. pose proof (chop_member_outside b e tr x (Z.lt_le_incl _ _ Hbe) Mx). lia.
  - destruct (Interval_eqb x y) eqn:Exy; [apply Interval_eqb_eq in Exy; congruence|].
    pose proof (chop_member_outside b e tr x (Z.lt_le_incl _ _ Hbe) Mx) as Ox.
    pose proof (chop_member_outside b e tr y (Z.lt_le_incl _ _ Hbe) My) as Oy.
    destruct Mx as [(Hx & _ & Nbx & Nex)|[(ox & Hox & Hbx & ->)|(ox & Hox & Hex & ->)]],
             My as [(Hy & _ & Nby & Ney)|[(oy & Hoy & Hby & ->)|(oy & Hoy & Hey & ->)]];
      simpl in *.
    + now apply NO.
    + destruct (Interval_eqb x oy) eqn:Eo.
      * apply Interval_eqb_eq in Eo. subst. exfalso. apply Nbx. lia.
      * assert (x <> oy) as Hd by (intros ->; rewrite (proj2 (Interval_eqb_eq oy oy) eq_refl) in Eo; discriminate).
        destruct (NO x oy Hx Hoy Hd); lia.
    + destruct (Interval_eqb x oy) eqn:Eo.
      * apply Interval_eqb_eq in Eo. subst. exfalso. apply Nex. lia.
      * assert (x <> oy) as Hd by (intros ->; rewrite (proj2 (Interval_eqb_eq oy oy) eq_refl) in Eo; discriminate).
        destruct (NO x oy Hx Hoy Hd); lia.
    + destruct (Interval_eqb ox y) eqn:Eo.
      * apply Interval_eqb_eq in Eo. subst. exfalso. apply Nby. lia.
      * assert (ox <> y) as Hd by (intros ->; rewrite (proj2 (Interval_eqb_eq y y) eq_refl) in Eo; discriminate).
        destruct (NO ox y Hox Hy Hd); lia.
    + destruct (Interval_eqb ox oy) eqn:Eo.
      * apply Interval_eqb_eq in Eo. subst. congruence.
      * assert (ox <> oy) as Hd by (intros ->; rewrite (proj2 (Interval_eqb_eq oy oy) eq_refl) in Eo; discriminate).
        destruct (NO ox oy Hox Hoy Hd); lia.
    + lia.
    + destruct (Interval_eqb ox y) eqn:Eo.
      * apply Interval_eqb_eq in Eo. subst. exfalso. apply Ney. lia.
      * assert (ox <> y) as Hd by (intros ->; rewrite (proj2 (Interval_eqb_eq y y) eq_refl) in Eo; discriminate).
        destruct (NO ox y Hox Hy Hd); lia.
    + lia.
    + destruct (Interval_eqb ox oy) eqn:Eo.
      * apply Interval_eqb_eq in Eo. subst. congruence.
      * assert (ox <> oy) as Hd by (intros ->; rewrite (proj2 (Interval_eqb_eq oy oy) eq_refl) in Eo; discriminate).
        destruct (NO ox oy Hox Hoy Hd); lia.
Qed.

End PaintFacts.

(** ** Configs built by the documented operations *)

Section Reachable.
Context {V : Type} `{PyValue V}.

Implicit Types (tr : t V) (iv : Interval V) (b e p : Z) (v w : V).

Section Preservation.
Variable P : t V -> Prop.

Lemma preserves_bindM {A B : Type} (m : M V A) (k : A -> M V B) :
  preserves P m -> (forall a, preserves P (k a)) -> preserves P (bindM m k).
Proof.
  intros Pm Pk tr W. unfold bindM. specialize (Pm tr W).
  destruct (m tr) as [[a|ex] tr1]; simpl in *; [now apply Pk|assumption].
Qed.

Lemma preserves_pure {A : Type} (o : outcome A) : preserves P (lift o).
Proof. intros tr W. exact W. Qed.

Lemma preserves_for_each {A : Type} (l : list A) (body : A -> M V unit) :
  (forall a, preserves P (body a)) -> preserves P (for_each l body).
Proof.
  intros Pb. induction l as [|a r IH]; simpl.
  - intros tr W. exact W.
  - apply preserves_bindM; auto.
Qed.

Hypothesis P_set_interval : forall b e v, preserves P (set_interval b e v).
Hypothesis P_chop : forall b e, preserves P (chop b e).

Lemma preserves_configure k v : preserves P (configure k v).
Proof.
  assert (Pp : forall s1 s2 s3, preserves P (paint s1 s2 s3 v)).
  { intros s1 s2 s3. unfold paint.
    apply preserves_bindM; [destruct s1; intros tr W; exact W|]. intros b.
    apply preserves_bindM; [destruct s2; intros tr W; exact W|]. intros e.
    destruct s3 as [st|]; [|apply P_set_interval].
    apply preserves_bindM; [apply preserves_pure|]. intros idx.
    apply preserves_bindM; [apply preserves_pure|]. intros vals.
    apply preserves_for_each. intros [[wb we] val]. apply P_set_interval. }
  assert (Pd : forall k', preserves P (configure_dispatch k' v)).
  { intros k'. unfold configure_dispatch.
    destruct k' as [s|i|l|s1 s2 s3|l|]; try (intros tr W; exact W); [|apply Pp].
    destruct l as [|k0 [|k1 [|k2 [|k3 r]]]]; try (intros tr W; exact W); apply Pp. }
  destruct k; try apply Pd.
  unfold configure. apply preserves_bindM; [apply preserves_pure|]. intros k'. apply Pd.
Qed.

Lemma preserves_delete k : preserves P (delete k).
Proof.
  unfold delete. destruct k as [s|i|l|s1 s2 s3|l|]; try (intros tr W; exact W).
  - apply preserves_bindM; [apply preserves_pure|]. intros _ tr W. exact W.
  - destruct l as [|k0 [|k1 [|k2 r]]]; try (intros tr W; exact W). apply P_chop.
Qed.

Lemma reachable_invariant : P [] -> forall tr, reachable tr -> P tr.
Proof.
  intros P0 tr R. induction R as [|tr k v R IH|tr k R IH].
  - exact P0.
  - now apply preserves_configure.
  - now apply preserves_delete.
Qed.

End Preservation.

Lemma preserves_well_formed_chop b e : preserves well_formed (chop b e).
Proof.
  intros tr [ND NN]. rewrite chop_eq. simpl. split; [now apply chopped_NoDup|].
  rewrite Forall_forall in *. intros iv Hin. apply In_chopped in Hin.
  destruct (chop_member_origin b e tr iv Hin) as (o & Ho & _ & _ & _ & [->|Hlt]); auto.
Qed.

Lemma preserves_well_formed_add iv : preserves well_formed (add iv).
Proof.
  intros tr [ND NN]. unfold add. destruct (mem iv tr) eqn:Hm; [split; assumption|].
  unfold is_null. destruct (Z.leb_spec (end_ iv) (begin iv)); simpl; [split; assumption|].
  split; constructor; auto. now apply mem_false.
Qed.

Lemma reachable_well_formed tr : reachable tr -> well_formed tr.
Proof.
  apply reachable_invariant.
  - intros b e v. unfold set_interval.
    apply preserves_bindM; [apply preserves_well_formed_chop|].
    intros _. apply preserves_well_formed_add.
  - apply preserves_well_formed_chop.
  - split; constructor.
Qed.

Lemma chopped_covers_sub b e tr p w : covers (chopped b e tr) p w -> covers tr p w.
Proof.
  intros (iv & Hin & Hp & Hd). apply In_chopped in Hin.
  destruct (chop_member_origin b e tr iv Hin) as (o & Ho & Hb & He & Ed & _).
  exists o. repeat split; auto; try lia. congruence.
Qed.

Lemma preserves_single_valued_chop b e : preserves single_valued (chop b e).
Proof.
  intros tr S p w w' C C'. rewrite chop_eq in C, C'. simpl in C, C'.
  eapply S; eapply chopped_covers_sub; eassumption.
Qed.

(** On a null window [set_interval] raises, or finds the interval present;
    either way it leaves the chopped tree. *)
Lemma set_interval_null b e v tr :
  e <= b -> snd (set_interval b e v tr) = chopped b e tr.
Proof.
  intros Hn. unfold set_interval, bindM. rewrite chop_eq. unfold addi, add.
  destruct (mem _ _); [reflexivity|].
  unfold is_null. simpl. destruct (Z.leb_spec e b); [reflexivity|lia].
Qed.

Lemma preserves_single_valued_set_interval b e v :
  preserves single_valued (set_interval b e v).
Proof.
  intros tr S. destruct (Z.lt_ge_cases b e) as [Hlt|Hge].
  - rewrite (set_interval_eq b e v tr Hlt). simpl. intros p w w' C C'.
    apply painted_covers in C, C'; try assumption.
    destruct C as [[? ->]|[? C]], C' as [[? ->]|[? C']]; try tauto.
    exact (S p w w' C C').
  - rewrite (set_interval_null b e v tr Hge).
    pose proof (preserves_single_valued_chop b e tr S) as S'.
    now rewrite chop_eq in S'.
Qed.

Lemma reachable_single_valued tr : reachable tr -> single_valued tr.
Proof.
  apply reachable_invariant.
  - apply preserves_single_valued_set_interval.
  - apply preserves_single_valued_chop.
  - intros p w w' (iv & [] & _).
Qed.

End Reachable.

(** ** Painting, deleting and the non-overlap invariant *)

Section PaintClaims.
Context {V : Type} `{PyValue V}.

Implicit Types (tr : t V) (v w x y : V) (p : Z).

Lemma lookup_point p tr :
  lookup (KInt p) tr = (v <- value p tr ;; Return (RValue v)).
Proof. reflexivity. Qed.

Lemma configure_pair start stop v tr :
  configure (KTuple [start; stop]) v tr = set_interval start stop v tr.
Proof. reflexivity. Qed.

Lemma lookup_point_of_covers p tr v :
  covers tr p v -> (forall w, covers tr p w -> w = v) ->
  lookup (KInt p) tr = Return (RValue v).
Proof.
  intros C U. rewrite lookup_point, (value_of_covers p tr v C U). reflexivity.
Qed.

Lemma lookup_point_KeyError p tr :
  lookup (KInt p) tr = Raise KeyError <-> forall v, ~ covers tr p v.
Proof.
  rewrite lookup_point, <- value_KeyError_iff.
  destruct (value_cases p tr) as [[v E]|E]; rewrite E; simpl; split; congruence.
Qed.

Lemma covers_single iv p w :
  covers [iv] p w <-> begin iv <= p < end_ iv /\ w = data iv.
Proof.
  unfold covers. split.
  - intros (a & [<-|[]] & Hp & Hd). auto.
  - intros [Hp ->]. exists iv. simpl. auto.
Qed.

(** C1 (as amended): [configure] with a [(start, stop)] key, [start < stop]
    and no step returns normally; it leaves the pieces that [chop] cuts
    from the stored intervals outside the window together with the single
    new interval, so the coverage inside the window is exactly the new
    value and the coverage outside it is what it was.  A point query inside
    the window returns the new value; a point query outside it fails with
    [KeyError] exactly when it did before, and returns what it returned
    before wherever the stored intervals that cover the point all carry one
    value, as they do when at most one covers it and throughout every
    config built from the empty one by [configure] and [delete] calls.  In
    particular, from the
    empty config, painting [(0,10)] with [x] and then [(3,7)] with [y]
    gives [x] at 0..2 and 7..9 and [y] at 3..6. *)
Theorem paint_overwrite tr start stop v (Hwin : start < stop) :
  (exists tr',
      configure (KTuple [start; stop]) v tr = (Return tt, tr') /\
      (forall iv, In iv tr' <->
                  iv = mkInterval start stop v \/ chop_member start stop tr iv) /\
      (forall p w, covers tr' p w <->
                   (start <= p < stop /\ w = v) \/ (~ start <= p < stop /\ covers tr p w)) /\
      (forall p, start <= p < stop -> lookup (KInt p) tr' = Return (RValue v)) /\
      (forall p, ~ start <= p < stop ->
                 (lookup (KInt p) tr' = Raise KeyError <->
                  lookup (KInt p) tr = Raise KeyError)) /\
      (forall p, ~ start <= p < stop ->
                 (forall w w', covers tr p w -> covers tr p w' -> w = w') ->
                 lookup (KInt p) tr' = lookup (KInt p) tr) /\
      (reachable tr ->
       forall p, ~ start <= p < stop -> lookup (KInt p) tr' = lookup (KInt p) tr)) /\
  (forall x y p,
      let tr2 := snd (configure (KTuple [3; 7]) y
                        (snd (configure (KTuple [0; 10]) x []))) in
      (0 <= p <= 2 \/ 7 <= p <= 9 -> lookup (KInt p) tr2 = Return (RValue x)) /\
      (3 <= p <= 6 -> lookup (KInt p) tr2 = Return (RValue y))).
Proof.
  split.
  - exists (painted start stop v tr).
    split; [rewrite configure_pair; now apply set_interval_eq|].
    split; [intros iv; now apply In_painted|].
    split; [intros p w; now apply painted_covers|].
    assert (Hout : forall p, ~ start <= p < stop ->
                     (forall w w', covers tr p w -> covers tr p w' -> w = w') ->
                     lookup (KInt p) (painted start stop v tr) = lookup (KInt p) tr).
    { intros p Hp U. rewrite !lookup_point. f_equal. apply value_ext; [|exact U].
      intros w. rewrite painted_covers by assumption. tauto. }
    split; [|split; [|split]].
    + intros p Hp. apply lookup_point_of_covers.
      * apply painted_covers; auto.
      * intros w C. apply painted_covers in C; tauto.
    + intros p Hp. rewrite !lookup_point_KeyError.
      split; intros N w C; apply (N w).
      * apply painted_covers; auto.
      * apply painted_covers in C; tauto.
    + exact Hout.
    + intros R p Hp. apply Hout; [assumption|].
      exact (reachable_single_valued tr R p).
  - intros x y p tr2.
    assert (E : tr2 = painted 3 7 y [mkInterval 0 10 x]) by reflexivity.
    rewrite E. split; intros Hp; apply lookup_point_of_covers.
    + apply painted_covers; [lia|]. right. split; [lia|].
      apply covers_single. simpl. split; [lia|reflexivity].
    + intros w C. apply painted_covers in C; [|lia].
      destruct C as [[? _]|[_ C]]; [lia|]. now apply covers_single in C.
    + apply painted_covers; [lia|]. left. split; [lia|reflexivity].
    + intros w C. apply painted_covers in C; [|lia].
      destruct C as [[_ ?]|[? _]]; [assumption|lia].
Qed.

(** C6 (as amended): [delete] with a [(b, e)] key of a window [b <= e]
    returns normally
    and leaves what [chop] leaves: the coverage inside the window is gone,
    so a point query there fails with [KeyError]; an interval that reaches
    into the window is cut at the boundary, so the coverage outside the
    window is what it was; nothing is inserted.  In particular, after
    painting [(0,10)] with [x] and deleting [(3,7)], the point query at 5
    fails with [KeyError] and the ones at 0 and 9 return [x]. *)
Theorem delete_creates_gap tr b e (Hwin : b <= e) :
  (exists tr',
      delete (KTuple [b; e]) tr = (Return tt, tr') /\
      (forall iv, In iv tr' <-> chop_member b e tr iv) /\
      (forall p w, covers tr' p w <-> covers tr p w /\ ~ b <= p < e) /\
      (forall p, b <= p < e -> lookup (KInt p) tr' = Raise KeyError)) /\
  (forall x,
      let tr2 := snd (delete (KTuple [3; 7]) (snd (configure (KTuple [0; 10]) x []))) in
      lookup (KInt 5) tr2 = Raise KeyError /\
      lookup (KInt 0) tr2 = Return (RValue x) /\
      lookup (KInt 9) tr2 = Return (RValue x)).
Proof.
  split.
  - exists (chopped b e tr).
    split; [apply chop_eq|].
    split; [intros iv; apply In_chopped|].
    split; [intros p w; now apply chopped_covers|].
    intros p Hp. apply lookup_point_KeyError. intros w C.
    apply chopped_covers in C; tauto.
  - intros x tr2.
    assert (E : tr2 = chopped 3 7 [mkInterval 0 10 x]) by reflexivity.
    rewrite E. split; [|split].
    + apply lookup_point_KeyError. intros w C. apply chopped_covers in C; lia.
    + apply lookup_point_of_covers.
      * apply chopped_covers; [lia|]. split; [|lia].
        apply covers_single. simpl. split; [lia|reflexivity].
      * intros w C. apply chopped_covers in C; [|lia].
        destruct C as [C _]. now apply covers_single in C.
    + apply lookup_point_of_covers.
      * apply chopped_covers; [lia|]. split; [|lia].
        apply covers_single. simpl. split; [lia|reflexivity].
      * intros w C. apply chopped_covers in C; [|lia].
        destruct C as [C _]. now apply covers_single in C.
Qed.

(** C7: a paint of a window [start < stop] returns normally; afterwards the
    new interval is the only stored interval that meets the painted range,
    every other stored interval lies wholly before [start] or from [stop]
    on; and if the stored intervals were pairwise non-overlapping before
    the paint, they are pairwise non-overlapping after it. *)
Theorem paint_non_overlap tr start stop v (Hwin : start < stop) :
  exists tr',
    configure (KTuple [start; stop]) v tr = (Return tt, tr') /\
    In (mkInterval start stop v) tr' /\
    (forall iv, In iv tr' -> iv <> mkInterval start stop v ->
                end_ iv <= start \/ stop <= begin iv) /\
    (non_overlapping tr -> non_overlapping tr').
Proof.
  exists (painted start stop v tr).
  split; [rewrite configure_pair; now apply set_interval_eq|].
  split; [apply In_painted; auto|].
  split; [|now apply painted_non_overlapping].
  intros iv Hin Hne. apply In_painted in Hin; [|assumption].
  destruct Hin as [->|M]; [congruence|].
  apply (chop_member_outside start stop tr); [lia|assumption].
Qed.

End PaintClaims.

(** ** Deleting by label, containment and range queries *)

Section KeyClaims.
Context {V : Type} `{PyValue V}.

Implicit Types (tr : t V) (iv : Interval V).

(** C10: [delete] with a string key that decodes as a label returns
    normally and leaves the tree exactly as it was: the string branch only
    decodes, and no later branch of the chain runs. *)
Theorem delete_label_noop tr label k (Hlabel : label_to_key label = Return k) :
  delete (KStr label) tr = (Return tt, tr).
Proof.
  unfold delete, lift, bindM. rewrite Hlabel. reflexivity.
Qed.

(** C8, where the code departs from it: for a point that no stored interval
    covers, [lookup] raises [KeyError] and so does the containment test,
    which is [bool(self[key])] with nothing to catch the exception. *)
Theorem contains_uncovered_raises tr i
  (Hgap : forall iv, In iv tr -> ~ begin iv <= i < end_ iv) :
  lookup (KInt i) tr = Raise KeyError /\ contains (KInt i) tr = Raise KeyError.
Proof.
  assert (E : lookup (KInt i) tr = Raise KeyError).
  { apply lookup_point_KeyError. intros v (iv & Hin & Hp & _). exact (Hgap iv Hin Hp). }
  split; [exact E|].
  unfold contains, getitem. rewrite E. reflexivity.
Qed.

Lemma overlap_meets b e tr : IntervalTree.overlap b e tr = filter (meets b e) tr.
Proof.
  unfold IntervalTree.overlap, meets. destruct (Z.leb_spec e b) as [L|L].
  - assert (E : (b <? e) = false) by (apply Z.ltb_ge; lia).
    rewrite E. simpl. induction tr; simpl; auto.
  - assert (E : (b <? e) = true) by (apply Z.ltb_lt; lia).
    rewrite E. reflexivity.
Qed.

Lemma sorted_by_begin (l : list (Interval V)) :
  StronglySorted (fun a a' => begin a <= begin a') (sorted l).
Proof.
  pose proof (sorted_sorted l) as S.
  induction S as [|a r Sr IH Fa]; constructor; [assumption|].
  eapply Forall_impl; [|exact Fa]. intros a'. apply ile_begin.
Qed.

(** C5: [lookup] with a [(b, e)] key enumerates the stored intervals that
    meet [[b, e)] in order of interval start; when there is exactly one it
    returns that interval's value itself, and when there are two or more
    (or none) it returns the list of their values in that order. *)
Theorem range_overlap_unwrap tr b e :
  exists hits,
    Permutation hits (filter (meets b e) tr) /\
    StronglySorted (fun a a' => begin a <= begin a') hits /\
    (forall hit, hits = [hit] ->
                 lookup (KTuple [b; e]) tr = Return (RValue (data hit))) /\
    ((2 <= List.length hits)%nat ->
     lookup (KTuple [b; e]) tr = Return (RList (map data hits))) /\
    (hits = [] -> lookup (KTuple [b; e]) tr = Return (RList [])).
Proof.
  exists (sorted (IntervalTree.overlap b e tr)).
  split; [rewrite <- overlap_meets; apply sorted_perm|].
  split; [apply sorted_by_begin|].
  unfold lookup, lookup_dispatch, overlap_content.
  destruct (sorted (IntervalTree.overlap b e tr)) as [|h1 [|h2 r]]; simpl.
  - repeat split; auto. intros hit E. discriminate.
  - repeat split; try lia; try discriminate. intros hit E. now inversion E.
  - repeat split; auto; try discriminate.
Qed.

End KeyClaims.

(** ** Labels *)

Section LabelFacts.


Lemma digit_not_space c : is_digit c = true -> is_space c = false.
Proof.
  destruct c as [[] [] [] [] [] [] [] []]; try reflexivity; discriminate.
Qed.

Lemma digit_not_sign c :
  is_digit c = true -> Ascii.eqb c "-" = false /\ Ascii.eqb c "+" = false.
Proof.
  destruct c as [[] [] [] [] [] [] [] []]; try (split; reflexivity); discriminate.
Qed.

Lemma all_digits_uint (u : Decimal.uint) :
  all_digits (list_ascii_of_string (NilEmpty.string_of_uint u)).
Proof.
  unfold all_digits. induction u; simpl; auto.
Qed.

Lemma all_digits_rev l : all_digits l -> all_digits (rev l).
Proof.
  unfold all_digits. rewrite !forallb_forall. intros A c Hc.
  apply A. now apply in_rev.
Qed.

Lemma lstrip_digits l : all_digits l -> lstrip l = l.
Proof.
  destruct l as [|c r]; [reflexivity|]. unfold all_digits. simpl.
  intros A. apply andb_true_iff in A. destruct A as [A _].
  now rewrite (digit_not_space c A).
Qed.

Lemma py_strip_digits l : all_digits l -> py_strip l = l.
Proof.
  intros A. unfold py_strip.
  rewrite (lstrip_digits l A), (lstrip_digits _ (all_digits_rev l A)).
  apply rev_involutive.
Qed.

Lemma digit_groups_digits l :
  all_digits l -> forall prev, l <> [] \/ prev = true -> digit_groups l prev = Some l.
Proof.
  unfold all_digits. induction l as [|c r IH]; intros A prev Hne.
  - destruct Hne as [Hne| ->]; [congruence|reflexivity].
  - simpl in *. apply andb_true_iff in A. destruct A as [Ac Ar].
    rewrite Ac, (IH Ar true) by auto. reflexivity.
Qed.

Lemma string_of_uint_nonempty (u : Decimal.uint) :
  u <> Decimal.Nil -> list_ascii_of_string (NilEmpty.string_of_uint u) <> [].
Proof. destruct u; simpl; congruence. Qed.

(** [int] reads back the decimal digits of an unsigned numeral. *)
Lemma py_int_uint (u : Decimal.uint) :
  u <> Decimal.Nil ->
  py_int (NilEmpty.string_of_uint u) = Return (Z.of_uint u).
Proof.
  intros Hu. unfold py_int.
  pose proof (all_digits_uint u) as A.
  pose proof (string_of_uint_nonempty u Hu) as Hne.
  rewrite (py_strip_digits _ A).
  assert (E : int_of_digits (list_ascii_of_string (NilEmpty.string_of_uint u))
              = Some (Z.of_uint u)).
  { unfold int_of_digits. rewrite (digit_groups_digits _ A) by auto.
    rewrite string_of_list_ascii_of_string, NilEmpty.usu. reflexivity. }
  destruct (list_ascii_of_string (NilEmpty.string_of_uint u)) as [|c r] eqn:El;
    [congruence|].
  unfold all_digits in A. simpl in A. apply andb_true_iff in A. destruct A as [Ac _].
  destruct (digit_not_sign c Ac) as [-> ->]. now rewrite E.
Qed.

(** For a number that is not negative, [str] prints digits only. *)
Lemma py_str_nonneg (n : Z) :
  0 <= n ->
  exists u, u <> Decimal.Nil /\ py_str n = NilEmpty.string_of_uint u /\ Z.of_uint u = n.
Proof.
  intros Hn. pose proof (DecimalZ.of_to n) as R. unfold py_str.
  destruct n as [|q|q]; [| |lia]; simpl in *.
  - exists (Decimal.D0 Decimal.Nil). repeat split; congruence.
  - exists (Pos.to_uint q). split; [apply DecimalPos.Unsigned.to_uint_nonnil|].
    split; [|exact R].
    unfold NilZero.string_of_uint.
    destruct (Pos.to_uint q) eqn:E; try reflexivity.
    exfalso. now apply (DecimalPos.Unsigned.to_uint_nonnil q).
Qed.

Lemma py_int_str (n : Z) : 0 <= n -> py_int (py_str n) = Return n.
Proof.
  intros Hn. destruct (py_str_nonneg n Hn) as (u & Hu & -> & <-).
  now apply py_int_uint.
Qed.

Lemma py_split_no_sep sep (s : string) :
  forallb (fun c => negb (Ascii.eqb c sep)) (list_ascii_of_string s) = true ->
  py_split sep s = [s].
Proof.
  induction s as [|c r IH]; simpl; [reflexivity|].
  intros A. apply andb_true_iff in A. destruct A as [Ac Ar].
  apply negb_true_iff in Ac. rewrite Ac, (IH Ar). reflexivity.
Qed.

Lemma py_split_append sep (s1 s2 : string) :
  forallb (fun c => negb (Ascii.eqb c sep)) (list_ascii_of_string s1) = true ->
  py_split sep (s1 ++ String sep s2) = s1 :: py_split sep s2.
Proof.
  induction s1 as [|c r IH]; simpl.
  - intros _. now rewrite Ascii.eqb_refl.
  - intros A. apply andb_true_iff in A. destruct A as [Ac Ar].
    apply negb_true_iff in Ac. rewrite Ac, (IH Ar). reflexivity.
Qed.

Lemma uint_no_dash (u : Decimal.uint) :
  forallb (fun c => negb (Ascii.eqb c "-"))
          (list_ascii_of_string (NilEmpty.string_of_uint u)) = true.
Proof.
  pose proof (all_digits_uint u) as A. unfold all_digits in A.
  rewrite forallb_forall in *. intros c Hc.
  now rewrite (proj1 (digit_not_sign c (A c Hc))).
Qed.

(** C4 (as amended): for a pair of integers [0 <= b < e], the label is
    [str(b)], a dash and [str(e)], and decoding it returns the pair. *)
Theorem label_round_trip (b e : Z) (Hb : 0 <= b) (Hlt : b < e) :
  key_to_label [b; e] = Return (py_str b ++ "-" ++ py_str e)%string /\
  (label <- key_to_label [b; e] ;; label_to_key label) = Return [b; e].
Proof.
  split; [reflexivity|].
  simpl. unfold label_to_key.
  destruct (py_str_nonneg b Hb) as (ub & Hub & Eb & Vb).
  destruct (py_str_nonneg e) as (ue & Hue & Ee & Ve); [lia|].
  rewrite Eb, Ee.
  change ("-" ++ NilEmpty.string_of_uint ue)%string
    with (String "-" (NilEmpty.string_of_uint ue)).
  rewrite (py_split_append _ _ _ (uint_no_dash ub)),
          (py_split_no_sep _ _ (uint_no_dash ue)).
  simpl. rewrite !py_int_uint by assumption. simpl. now rewrite Vb, Ve.
Qed.

(** The label of a negative [begin] starts with its sign; the split yields
    an empty first piece and [int] rejects it. *)
Lemma label_round_trip_negative :
  -3 < 7 /\
  key_to_label [-3; 7] = Return "-3-7" /\
  (label <- key_to_label [-3; 7] ;; label_to_key label) = Raise ValueError.
Proof. repeat split; reflexivity. Qed.

Lemma label_round_trip_witness :
  0 <= 3 /\ 3 < 7 /\
  (label <- key_to_label [3; 7] ;; label_to_key label) = Return [3; 7].
Proof.
  split; [lia|]. split; [lia|].
  exact (proj2 (label_round_trip 3 7 ltac:(lia) ltac:(lia))).
Defined.

End LabelFacts.

(** ** Stepped painting *)

Section SteppedClaims.
Context {V : Type} `{PyValue V}.

Implicit Types (tr : t V) (v x y z : V) (vals : list V).

Lemma configure_stepped start stop step v vals idx tr :
  py_range start stop step = Return idx ->
  v_iter v = Return vals ->
  configure (KTuple [start; stop; step]) v tr =
  paint_each (zip3 (removelast idx) (tl idx) vals) tr.
Proof.
  intros Hr Hi. unfold configure, configure_dispatch, paint, bindM, ret, lift.
  rewrite Hr, Hi. reflexivity.
Qed.

Lemma paint_each_cons wb we val l tr :
  wb < we ->
  paint_each ((wb, we, val) :: l) tr = paint_each l (painted wb we val tr).
Proof.
  intros Hw. unfold paint_each. simpl. unfold bindM.
  now rewrite (set_interval_eq wb we val tr Hw).
Qed.

(** A stepped key reaches the loop of [configure] with the start, stop and
    step it carries. *)
Lemma configure_stepped_window k start stop step v vals idx tr :
  stepped_window tr k = Some (start, stop, step) ->
  py_range start stop step = Return idx ->
  v_iter v = Return vals ->
  configure k v tr = paint_each (zip3 (removelast idx) (tl idx) vals) tr.
Proof.
  intros Hk Hr Hi.
  destruct k as [label|i|l|ks ke kst|l|]; try discriminate.
  - simpl in Hk. unfold configure, bindM, lift.
    destruct (label_to_key label) as [[|a [|b [|c [|d l]]]]|ex]; try discriminate.
    injection Hk as -> -> ->.
    apply (configure_stepped start stop step v vals idx tr Hr Hi).
  - destruct l as [|a [|b [|c [|d l]]]]; try discriminate.
    injection Hk as -> -> ->.
    apply (configure_stepped start stop step v vals idx tr Hr Hi).
  - destruct kst as [st|]; [|discriminate]. simpl in Hk.
    injection Hk as <- <- <-.
    unfold configure, configure_dispatch, paint, bindM, ret, lift, read.
    destruct ks, ke; cbn [fst snd]; rewrite Hr, Hi; reflexivity.
Qed.

(** The loop over the windows of an ascending range paints the values in
    order. *)
Lemma paint_each_range start step (Hstep : 0 < step) (n : nat) :
  forall (k : nat) vals tr,
    let idx := map (fun i => start + Z.of_nat i * step) (seq k n) in
    paint_each (zip3 (removelast idx) (tl idx) vals) tr =
    (Return tt, paint_in_order (start + Z.of_nat k * step) step vals (pred n) tr).
Proof.
  induction n as [|n IH]; intros k vals tr; [reflexivity|].
  destruct n as [|n]; [reflexivity|].
  specialize (IH (S k)).
  cbn [seq map pred] in *. cbn [removelast tl zip3] in *.
  destruct vals as [|x vals]; [reflexivity|].
  rewrite paint_each_cons by (rewrite Nat2Z.inj_succ; nia).
  rewrite IH. cbn [paint_in_order].
  replace (start + Z.of_nat (S k) * step) with (start + Z.of_nat k * step + step)
    by (rewrite Nat2Z.inj_succ; ring).
  reflexivity.
Qed.

(** The sub-windows between consecutive indices of an ascending range are
    the windows of width [step] from [start] on that end before [stop]. *)
Lemma range_window_count start stop step (Hstep : 0 < step) (i : nat) :
  (i < pred (Z.to_nat ((stop - start + step - 1) / step)))%nat <->
  start + (Z.of_nat i + 1) * step < stop.
Proof.
  set (q := (stop - start + step - 1) / step).
  assert (L : forall j, j <= q <-> step * j <= stop - start + step - 1).
  { intros j. split; intros Hj.
    - transitivity (step * q); [nia|]. apply Z.mul_div_le. lia.
    - apply Z.div_le_lower_bound; assumption. }
  specialize (L (Z.of_nat i + 2)).
  split; intros Hi.
  - assert (Z.of_nat i + 2 <= q) by lia. apply L in H0. nia.
  - assert (Z.of_nat i + 2 <= q) by (apply L; nia). lia.
Qed.

(** What [paint_in_order] covers: each window that has a value carries it
    and nothing else, and outside those windows the coverage is the one
    before. *)
Lemma paint_in_order_covers step (Hstep : 0 < step) (cnt : nat) :
  forall vals b tr p w,
    covers (paint_in_order b step vals cnt tr) p w <->
    (exists (i : nat) x,
        (i < cnt)%nat /\ nth_error vals i = Some x /\
        b + Z.of_nat i * step <= p < b + (Z.of_nat i + 1) * step /\ w = x) \/
    (~ b <= p < b + Z.of_nat (Nat.min cnt (List.length vals)) * step /\
     covers tr p w).
Proof.
  induction cnt as [|cnt IH]; intros vals b tr p w.
  - cbn [paint_in_order Nat.min]. split.
    + intros C. right. split; [simpl; lia|exact C].
    + intros [(i & x & Hi & _)|[_ C]]; [lia|exact C].
  - destruct vals as [|x vals].
    + cbn [paint_in_order]. split.
      * intros C. right. split; [simpl; lia|exact C].
      * intros [(i & y & _ & Hn & _)|[_ C]]; [|exact C].
        destruct i; discriminate.
    + cbn [paint_in_order]. rewrite IH. rewrite painted_covers by lia.
      cbn [List.length]. rewrite <- Nat.succ_min_distr.
      set (m := Nat.min cnt (List.length vals)).
      rewrite Nat2Z.inj_succ.
      assert (Hm : 0 <= Z.of_nat m * step) by nia.
      split.
      * intros [(i & y & Hi & Hn & Hp & ->)|[Hout [[Hp ->]|[Hp C]]]].
        -- left. exists (S i), y. split; [lia|]. split; [exact Hn|].
           split; [rewrite Nat2Z.inj_succ; lia|reflexivity].
        -- left. exists 0%nat, x. split; [lia|]. split; [reflexivity|].
           split; [change (Z.of_nat 0) with 0; lia|reflexivity].
        -- right. split; [lia|exact C].
      * intros [(i & y & Hi & Hn & Hp & ->)|[Hout C]].
        -- destruct i as [|i].
           ++ injection Hn as <-. change (Z.of_nat 0) with 0 in Hp.
              right. split; [lia|]. left. split; [lia|reflexivity].
           ++ left. exists i, y. split; [lia|]. split; [exact Hn|].
              split; [rewrite Nat2Z.inj_succ in Hp; lia|reflexivity].
        -- right. split; [lia|]. right. split; [lia|exact C].
Qed.

(** C2 (as amended): the stepped [configure] makes no length check.  For a
    key that carries a step, be it a three-part tuple, a slice or a label,
    with a positive step and an iterable value, it returns normally
    whatever the length of the value sequence.  The sub-windows are the
    windows of width [step] from [start] on that end before [stop]; [zip]
    pairs the values with them in order and stops at the shorter of the
    two: the tree afterwards is the one that painting the values in order
    leaves, a point query inside a paired sub-window returns the value at
    the sub-window's position, every point of a paired sub-window is
    covered by that value alone, and every other point is covered as
    before, so the points outside [[start, stop)] and the points that the
    values do not reach are; with an empty sequence the index is
    unchanged.  In particular,
    painting [[0,9)] with step 3 and a sequence of two values returns
    normally and paints the first value on [[0,3)] and the second on
    [[3,6)]. *)
Theorem stepped_paint_no_length_check tr k start stop step v vals
  (Hkey : stepped_window tr k = Some (start, stop, step))
  (Hstep : 0 < step) (Hiter : v_iter v = Return vals) :
  (exists windows : nat,
      (forall i : nat,
          (i < windows)%nat <-> start + (Z.of_nat i + 1) * step < stop) /\
      configure k v tr = (Return tt, paint_in_order start step vals windows tr) /\
      (forall (i : nat) x p,
          (i < windows)%nat -> nth_error vals i = Some x ->
          start + Z.of_nat i * step <= p < start + (Z.of_nat i + 1) * step ->
          lookup (KInt p) (snd (configure k v tr)) = Return (RValue x)) /\
      (forall p w,
          covers (snd (configure k v tr)) p w <->
          (exists (i : nat) x,
              (i < windows)%nat /\ nth_error vals i = Some x /\
              start + Z.of_nat i * step <= p < start + (Z.of_nat i + 1) * step /\
              w = x) \/
          (~ start <= p
               < start + Z.of_nat (Nat.min windows (List.length vals)) * step /\
           covers tr p w)) /\
      (forall p w,
          ~ start <= p < stop ->
          (covers (snd (configure k v tr)) p w <-> covers tr p w)) /\
      (forall p w,
          start + Z.of_nat (List.length vals) * step <= p ->
          (covers (snd (configure k v tr)) p w <-> covers tr p w))) /\
  (vals = [] -> configure k v tr = (Return tt, tr)) /\
  (forall v2 x y,
      v_iter v2 = Return [x; y] ->
      let r := configure (KTuple [0; 9; 3]) v2 [] in
      fst r = Return tt /\
      (forall p, 0 <= p < 3 -> lookup (KInt p) (snd r) = Return (RValue x)) /\
      (forall p, 3 <= p < 6 -> lookup (KInt p) (snd r) = Return (RValue y))).
Proof.
  set (n := Z.to_nat ((stop - start + step - 1) / step)).
  assert (Hr : py_range start stop step
               = Return (map (fun i => start + Z.of_nat i * step) (seq 0 n))).
  { unfold py_range. destruct (Z.eqb_spec step 0); [lia|].
    destruct (Z.ltb_spec 0 step); [reflexivity|lia]. }
  assert (E : configure k v tr
              = (Return tt, paint_in_order start step vals (pred n) tr)).
  { rewrite (configure_stepped_window _ _ _ _ _ _ _ tr Hkey Hr Hiter).
    rewrite (paint_each_range start step Hstep n 0 vals tr).
    cbn [Z.of_nat]. now rewrite Z.mul_0_l, Z.add_0_r. }
  assert (Hcov := paint_in_order_covers step Hstep (pred n) vals start tr).
  split; [|split].
  - exists (pred n). split; [intros i; apply range_window_count; exact Hstep|].
    split; [exact E|]. rewrite E. cbn [snd].
    assert (Hin : forall (i : nat) x p,
               (i < pred n)%nat -> nth_error vals i = Some x ->
               start + Z.of_nat i * step <= p < start + (Z.of_nat i + 1) * step ->
               start <= p < stop /\
               p < start + Z.of_nat (Nat.min (pred n) (List.length vals)) * step /\
               p < start + Z.of_nat (List.length vals) * step).
    { intros i x p Hi Hn Hp.
      assert (Hl : (i < List.length vals)%nat)
        by (apply nth_error_Some; congruence).
      assert (Hm : (S i <= Nat.min (pred n) (List.length vals))%nat) by lia.
      assert (Hs := proj1 (range_window_count start stop step Hstep i) Hi).
      apply inj_le in Hm. apply inj_lt in Hl. rewrite Nat2Z.inj_succ in Hm.
      repeat split; nia. }
    assert (Hmin : Nat.min (pred n) (List.length vals) = 0%nat \/
                   start + Z.of_nat (Nat.min (pred n) (List.length vals)) * step
                   < stop).
    { destruct (Nat.min (pred n) (List.length vals)) as [|m] eqn:Em; [now left|].
      right.
      assert (Hs := proj1 (range_window_count start stop step Hstep m)
                      ltac:(lia)).
      rewrite Nat2Z.inj_succ. lia. }
    split; [|split; [exact Hcov|split]].
    + intros i x p Hi Hn Hp. apply lookup_point_of_covers.
      * apply Hcov. left. exists i, x. auto.
      * intros w C. apply Hcov in C.
        destruct C as [(j & y & Hj & Hnj & Hpj & ->)|[Hout _]].
        -- assert (j = i) by nia. subst j. congruence.
        -- exfalso. apply Hout. destruct (Hin i x p Hi Hn Hp) as (? & ? & _). lia.
    + intros p w Hout. rewrite Hcov. split.
      * intros [(i & x & Hi & Hn & Hp & _)|[_ C]]; [|exact C].
        destruct (Hin i x p Hi Hn Hp) as (? & _). contradiction.
      * intros C. right. split; [|exact C].
        destruct Hmin as [-> | Hlt]; [simpl; lia|lia].
    + intros p w Hp. rewrite Hcov. split.
      * intros [(i & x & Hi & Hn & Hq & _)|[_ C]]; [|exact C].
        destruct (Hin i x p Hi Hn Hq) as (_ & _ & ?). lia.
      * intros C. right. split; [|exact C].
        assert (Hle : (Nat.min (pred n) (List.length vals) <= List.length vals)%nat)
          by lia.
        apply inj_le in Hle. nia.
  - intros ->. rewrite E. destruct (pred n); reflexivity.
  - intros v2 x y Hi2 r.
    assert (E2 : r = (Return tt, painted 3 6 y (painted 0 3 x []))).
    { unfold r. rewrite (configure_stepped 0 9 3 v2 [x; y] [0; 3; 6] []) by auto.
      cbn [removelast tl zip3].
      rewrite !paint_each_cons by lia. reflexivity. }
    rewrite E2. cbn [fst snd]. split; [reflexivity|].
    assert (E1 : painted 0 3 x [] = [mkInterval 0 3 x]) by reflexivity.
    rewrite E1. split; intros p Hp; apply lookup_point_of_covers.
    + apply painted_covers; [lia|]. right. split; [lia|].
      apply covers_single. simpl. split; [lia|reflexivity].
    + intros w C. apply painted_covers in C; [|lia].
      destruct C as [[? _]|[_ C]]; [lia|]. now apply covers_single in C.
    + apply painted_covers; [lia|]. left. split; [lia|reflexivity].
    + intros w C. apply painted_covers in C; [|lia].
      destruct C as [[_ ?]|[? _]]; [assumption|lia].
Qed.

(** C3, where the code departs from it: [range(start, stop, step)] stops
    short of [stop], so the window from the last index to [stop] is never
    painted.  Painting [[0,9)] with step 3 and three values on an empty
    config paints [[0,3)] and [[3,6)] only; the third value is dropped and
    the points 6..8 stay uncovered. *)
Theorem stepped_paint_misses_last_window v x y z
  (Hiter : v_iter v = Return [x; y; z]) :
  let r := configure (KTuple [0; 9; 3]) v [] in
  fst r = Return tt /\
  (forall iv, In iv (snd r) <-> iv = mkInterval 0 3 x \/ iv = mkInterval 3 6 y) /\
  (forall p, 6 <= p < 9 -> lookup (KInt p) (snd r) = Raise KeyError).
Proof.
  intros r.
  assert (E : r = (Return tt, painted 3 6 y (painted 0 3 x []))).
  { unfold r. rewrite (configure_stepped 0 9 3 v [x; y; z] [0; 3; 6] []) by auto.
    cbn [removelast tl zip3].
    rewrite !paint_each_cons by lia. reflexivity. }
  rewrite E. cbn [fst snd]. split; [reflexivity|].
  assert (E1 : painted 0 3 x [] = [mkInterval 0 3 x]) by reflexivity.
  rewrite E1. split.
  - intros iv. rewrite In_painted by lia. split.
    + intros [->|M]; [auto|]. left.
      destruct M as [(Hin & _)|[(o & [<-|[]] & Hb & _)|(o & [<-|[]] & He & _)]];
        simpl in *; try lia.
      destruct Hin as [<-|[]]. reflexivity.
    + intros [-> | ->]; [right|now left].
      left. simpl. repeat split; auto; simpl; lia.
  - intros p Hp. apply lookup_point_KeyError. intros w C.
    apply painted_covers in C; [|lia].
    destruct C as [[? _]|[_ C]]; [lia|]. apply covers_single in C. simpl in C. lia.
Qed.

End SteppedClaims.

(** ** Snapshots *)

Section SnapshotClaims.
Context {V : Type} `{PyValue V}.

Implicit Types (tr : t V) (iv : Interval V).

Lemma filter_perm (f : Interval V -> bool) (l l' : list (Interval V)) :
  Permutation l l' -> Permutation (filter f l) (filter f l').
Proof.
  induction 1 as [|x l l' P IH|x y l|l l' l'' P1 IH1 P2 IH2]; simpl.
  - constructor.
  - destruct (f x); auto.
  - destruct (f x), (f y); auto. apply perm_swap.
  - now transitivity (filter f l').
Qed.

(** Point queries depend on the set of stored intervals only. *)
Lemma value_perm p tr tr' : Permutation tr tr' -> value p tr = value p tr'.
Proof.
  intros P. unfold value, at_.
  now rewrite (sorted_perm_eq _ _ (filter_perm (contains_point p) _ _ P)).
Qed.

Lemma init_well_formed (l : list (Interval V)) : well_formed l -> init l = Return l.
Proof.
  intros [ND NN]. unfold init.
  assert (E : existsb is_null l = false).
  { destruct (existsb is_null l) eqn:E; [|reflexivity].
    apply existsb_exists in E. destruct E as (iv & Hin & Hn).
    rewrite Forall_forall in NN. specialize (NN iv Hin).
    unfold is_null in Hn. apply Z.leb_le in Hn. lia. }
  rewrite E. f_equal. clear E NN.
  induction ND as [|x r Hx ND IH]; simpl; [reflexivity|].
  rewrite IH. now rewrite (proj2 (mem_false x r) Hx).
Qed.

Lemma ile_key_le (a a' : Interval V) : ile a a' -> key_le a a'.
Proof.
  unfold ile, key_le. intros N.
  destruct (Z.lt_trichotomy (begin a) (begin a')) as [L|[E|G]]; [now left| |].
  - right. split; [assumption|].
    destruct (Z.le_gt_cases (end_ a) (end_ a')) as [L|G]; [assumption|].
    assert (T : Interval_lt a' a = true) by (apply Interval_lt_iff; right; split; [lia|left; lia]).
    congruence.
  - assert (T : Interval_lt a' a = true) by (apply Interval_lt_iff; left; lia).
    congruence.
Qed.

(** C9: for a config that a sequence of [configure] calls has built, the
    snapshot lists exactly the stored triples, sorted by [(begin, end)];
    [__setstate__] on that snapshot returns normally and leaves a tree on
    which every point query gives what it gave on the original; and the
    snapshot is the same for any other enumeration of the same triples. *)
Theorem snapshot_round_trip tr (Hreach : reachable tr) :
  let snap := getstate tr in
  Permutation snap tr /\
  StronglySorted key_le snap /\
  (forall tr0, exists tr',
      setstate snap tr0 = (Return tt, tr') /\
      forall p, lookup (KInt p) tr' = lookup (KInt p) tr) /\
  (forall tr2, Permutation tr2 tr -> getstate tr2 = snap).
Proof.
  intros snap. unfold snap, getstate.
  pose proof (reachable_well_formed tr Hreach) as [ND NN].
  split; [apply sorted_perm|].
  split; [|split].
  - pose proof (sorted_sorted tr) as S.
    induction S as [|a r Sr IH Fa]; constructor; [assumption|].
    eapply Forall_impl; [|exact Fa]. intros a'. apply ile_key_le.
  - intros tr0. exists (sorted tr). split.
    + unfold setstate. rewrite init_well_formed; [reflexivity|].
      split.
      * eapply Permutation_NoDup; [symmetry; apply sorted_perm|assumption].
      * rewrite Forall_forall in *. intros iv Hin. apply NN.
        eapply Permutation_in; [apply sorted_perm|assumption].
    + intros p. rewrite !lookup_point. f_equal. apply value_perm, sorted_perm.
  - intros tr2 P. now apply sorted_perm_eq.
Qed.

End SnapshotClaims.

(** ** How paints and deletes compose *)

Section Composition.
Context {V : Type} `{PyValue V}.

Implicit Types (tr : t V) (iv : Interval V) (b e p : Z) (v w : V).

Lemma delete_pair b e tr : delete (KTuple [b; e]) tr = (Return tt, chopped b e tr).
Proof. apply chop_eq. Qed.

Lemma configure_pair_painted b e v tr :
  b < e -> configure (KTuple [b; e]) v tr = (Return tt, painted b e v tr).
Proof. intros Hw. now apply set_interval_eq. Qed.

(** Two trees that hold the same intervals answer every point query
    alike. *)
Lemma lookup_point_same_members p tr tr' :
  NoDup tr -> NoDup tr' -> (forall iv, In iv tr <-> In iv tr') ->
  lookup (KInt p) tr = lookup (KInt p) tr'.
Proof.
  intros N N' M. unfold lookup, lookup_dispatch, value, at_.
  rewrite (sorted_perm_eq (filter (contains_point p) tr) (filter (contains_point p) tr'));
    [reflexivity|].
  apply NoDup_Permutation; try now apply NoDup_filter.
  intros iv. rewrite !filter_In, M. tauto.
Qed.

(** Where the stored intervals are non-null and lie outside a window,
    [chop] on that window leaves them as they are. *)
Lemma chop_member_fixed b e tr iv :
  b <= e ->
  (forall o, In o tr -> begin o < end_ o /\ (end_ o <= b \/ e <= begin o)) ->
  (chop_member b e tr iv <-> In iv tr).
Proof.
  intros Hbe Hout. split.
  - intros [(Hin & _)|[(o & Ho & Hb & ->)|(o & Ho & He & ->)]]; [assumption| |].
    + destruct (Hout o Ho). lia.
    + destruct (Hout o Ho) as [Hn Ho']. assert (E : begin o = e) by lia.
      rewrite <- E. destruct o. exact Ho.
  - intros Hin. destruct (Hout iv Hin) as [Hn Ho].
    destruct (Z.eq_dec (begin iv) e) as [E|N].
    + right. right. exists iv. split; [assumption|]. split; [lia|].
      rewrite <- E. now destruct iv.
    + left. split; [assumption|]. lia.
Qed.

Lemma chopped_outside b e tr iv :
  b <= e -> Forall (fun o => begin o < end_ o) tr -> In iv (chopped b e tr) ->
  begin iv < end_ iv /\ (end_ iv <= b \/ e <= begin iv).
Proof.
  intros Hbe NN Hin. apply In_chopped in Hin. split.
  - destruct (chop_member_origin b e tr iv Hin) as (o & Ho & _ & _ & _ & [->|Hlt]);
      [|assumption].
    rewrite Forall_forall in NN. now apply NN.
  - now apply (chop_member_outside b e tr).
Qed.

(** Paints of two disjoint windows can be made in either order: the
    coverage is the same, so is every point query inside the two windows,
    and so is every point query at all on a config whose covering intervals
    carry one value per point. *)
Theorem disjoint_paints_commute tr a0 a1 va b0 b1 vb
  (Ha : a0 < a1) (Hb : b0 < b1) (Hdisj : a1 <= b0 \/ b1 <= a0) :
  let ab := snd (configure (KTuple [b0; b1]) vb
                   (snd (configure (KTuple [a0; a1]) va tr))) in
  let ba := snd (configure (KTuple [a0; a1]) va
                   (snd (configure (KTuple [b0; b1]) vb tr))) in
  (forall p w, covers ab p w <-> covers ba p w) /\
  (forall p, a0 <= p < a1 -> lookup (KInt p) ab = Return (RValue va) /\
                            lookup (KInt p) ba = Return (RValue va)) /\
  (forall p, b0 <= p < b1 -> lookup (KInt p) ab = Return (RValue vb) /\
                            lookup (KInt p) ba = Return (RValue vb)) /\
  (single_valued tr -> forall p, lookup (KInt p) ab = lookup (KInt p) ba).
Proof.
  intros ab ba. unfold ab, ba.
  repeat (rewrite configure_pair_painted by assumption; cbn [snd]).
  assert (Cab : forall p w, covers (painted b0 b1 vb (painted a0 a1 va tr)) p w <->
                (b0 <= p < b1 /\ w = vb) \/ (a0 <= p < a1 /\ w = va) \/
                (~ b0 <= p < b1 /\ ~ a0 <= p < a1 /\ covers tr p w)).
  { intros p w. rewrite !painted_covers by assumption. intuition lia. }
  assert (Cba : forall p w, covers (painted a0 a1 va (painted b0 b1 vb tr)) p w <->
                (b0 <= p < b1 /\ w = vb) \/ (a0 <= p < a1 /\ w = va) \/
                (~ b0 <= p < b1 /\ ~ a0 <= p < a1 /\ covers tr p w)).
  { intros p w. rewrite !painted_covers by assumption. intuition lia. }
  split; [intros p w; rewrite Cab, Cba; tauto|].
  split; [|split].
  - intros p Hp. split; apply lookup_point_of_covers;
      try (apply Cab; right; left; auto); try (apply Cba; right; left; auto);
      intros w C; [apply Cab in C|apply Cba in C];
      destruct C as [[? _]|[[_ ?]|(_ & ? & _)]]; try assumption; lia.
  - intros p Hp. split; apply lookup_point_of_covers;
      try (apply Cab; left; auto); try (apply Cba; left; auto);
      intros w C; [apply Cab in C|apply Cba in C];
      destruct C as [[_ ?]|[[? _]|(? & _)]]; try assumption; try lia; tauto.
  - intros S p. rewrite !lookup_point. f_equal. apply value_ext.
    + intros w. rewrite Cab, Cba. tauto.
    + intros w w' C C'. apply Cba in C, C'.
      destruct C as [[? ->]|[[? ->]|(? & ? & C)]],
               C' as [[? ->]|[[? ->]|(? & ? & C')]]; try reflexivity; try tauto; try lia.
      exact (S p w w' C C').
Qed.

(** Deleting a window right after painting it leaves the stored intervals
    that deleting it alone leaves, whatever value was painted; every point
    query agrees. *)
Theorem delete_undoes_paint tr b e v (Hwf : well_formed tr) (Hwin : b < e) :
  let pd := snd (delete (KTuple [b; e]) (snd (configure (KTuple [b; e]) v tr))) in
  let d := snd (delete (KTuple [b; e]) tr) in
  (forall iv, In iv pd <-> In iv d) /\
  (forall p, lookup (KInt p) pd = lookup (KInt p) d).
Proof.
  intros pd d. unfold pd, d.
  rewrite configure_pair_painted by assumption. cbn [snd].
  rewrite !delete_pair. cbn [snd].
  destruct Hwf as [ND NN].
  assert (M : forall iv, In iv (chopped b e (painted b e v tr)) <-> In iv (chopped b e tr)).
  { intros iv. rewrite In_chopped. split.
    - intros [(Hin & Nenv & _)|[(o & Ho & Hb & ->)|(o & Ho & He & ->)]].
      + apply In_painted in Hin; [|assumption].
        destruct Hin as [->|Hm]; [simpl in Nenv; lia|now apply In_chopped].
      + apply In_painted in Ho; [|assumption]. destruct Ho as [->|Hm]; [simpl in Hb; lia|].
        apply In_chopped in Hm.
        destruct (chopped_outside b e tr o (Z.lt_le_incl _ _ Hwin) NN Hm). lia.
      + apply In_painted in Ho; [|assumption]. destruct Ho as [->|Hm]; [simpl in He; lia|].
        apply In_chopped in Hm.
        destruct (chopped_outside b e tr o (Z.lt_le_incl _ _ Hwin) NN Hm) as [Hn Ho].
        assert (E : mkInterval e (end_ o) (data o) = o)
          by (destruct o; simpl in *; f_equal; lia).
        rewrite E. exact Hm.
    - intros Hin.
      destruct (chopped_outside b e tr iv (Z.lt_le_incl _ _ Hwin) NN Hin) as [Hn Ho].
      assert (Hp : In iv (painted b e v tr)).
      { apply In_painted; [assumption|]. right. now apply In_chopped. }
      destruct (Z.eq_dec (begin iv) e) as [E|N].
      + right. right. exists iv. split; [assumption|]. split; [lia|].
        rewrite <- E. now destruct iv.
      + left. split; [assumption|]. lia. }
  split; [exact M|].
  intros p. apply lookup_point_same_members; [| |exact M].
  - apply chopped_NoDup.
    destruct (set_interval_spec b e v tr Hwin) as (tr' & E & _ & N).
    unfold painted. rewrite E. now apply N.
  - now apply chopped_NoDup.
Qed.

(** Deleting the same window twice leaves what deleting it once leaves. *)
Theorem delete_idempotent tr b e (Hwf : well_formed tr) (Hwin : b <= e) :
  let d := snd (delete (KTuple [b; e]) tr) in
  let dd := snd (delete (KTuple [b; e]) d) in
  (forall iv, In iv dd <-> In iv d) /\
  (forall k, lookup (KInt k) dd = lookup (KInt k) d).
Proof.
  intros d dd. unfold dd, d. rewrite !delete_pair. cbn [snd].
  destruct Hwf as [ND NN].
  assert (M : forall iv, In iv (chopped b e (chopped b e tr)) <-> In iv (chopped b e tr)).
  { intros iv. rewrite In_chopped. apply chop_member_fixed; [assumption|].
    intros o Ho. now apply (chopped_outside b e tr). }
  split; [exact M|].
  intros p. apply lookup_point_same_members; [| |exact M];
    repeat apply chopped_NoDup; assumption.
Qed.

(** [delete] of a window [b <= e] keeps a non-overlapping config
    non-overlapping, and a set of non-null intervals a set of non-null
    intervals. *)
Theorem delete_keeps_invariants tr b e (Hwin : b <= e) :
  let d := snd (delete (KTuple [b; e]) tr) in
  (non_overlapping tr -> non_overlapping d) /\ (well_formed tr -> well_formed d).
Proof.
  intros d. unfold d. rewrite delete_pair. cbn [snd]. split.
  - intros NO x y Hx Hy Hne. apply In_chopped in Hx, Hy.
    assert (Dec : forall i j : Interval V, i = j \/ i <> j).
    { intros i j. destruct (Interval_eqb i j) eqn:E.
      - left. now apply Interval_eqb_eq.
      - right. intros ->. rewrite (proj2 (Interval_eqb_eq j j) eq_refl) in E. discriminate. }
    destruct Hx as [(Hx & _ & Nbx & Nex)|[(ox & Hox & Hbx & ->)|(ox & Hox & Hex & ->)]],
             Hy as [(Hy & _ & Nby & Ney)|[(oy & Hoy & Hby & ->)|(oy & Hoy & Hey & ->)]];
      simpl in *.
    + now apply NO.
    + destruct (Dec x oy) as [->|Hd]; [lia|]. destruct (NO x oy Hx Hoy Hd); lia.
    + destruct (Dec x oy) as [->|Hd]; [lia|]. destruct (NO x oy Hx Hoy Hd); lia.
    + destruct (Dec ox y) as [->|Hd]; [lia|]. destruct (NO ox y Hox Hy Hd); lia.
    + destruct (Dec ox oy) as [->|Hd]; [congruence|]. destruct (NO ox oy Hox Hoy Hd); lia.
    + lia.
    + destruct (Dec ox y) as [->|Hd]; [lia|]. destruct (NO ox y Hox Hy Hd); lia.
    + lia.
    + destruct (Dec ox oy) as [->|Hd]; [congruence|]. destruct (NO ox oy Hox Hoy Hd); lia.
  - intros W. pose proof (preserves_well_formed_chop b e tr W) as W'.
    now rewrite chop_eq in W'.
Qed.

End Composition.

(** ** Key shapes and edge cases of [configure] and [delete] *)

Section KeyShapes.
Context {V : Type} `{PyValue V}.

Implicit Types (tr : t V) (iv : Interval V) (b e p : Z) (v w : V).

Lemma fold_min_le (l : list Z) : forall x y, In y (x :: l) -> fold_right Z.min x l <= y.
Proof.
  induction l as [|z r IH]; intros x y [<-|Hin]; simpl in *; try lia; try tauto.
  - specialize (IH x x (or_introl eq_refl)). lia.
  - destruct Hin as [<-|Hin]; [lia|]. specialize (IH x y (or_intror Hin)). lia.
Qed.

Lemma fold_max_ge (l : list Z) : forall x y, In y (x :: l) -> y <= fold_right Z.max x l.
Proof.
  induction l as [|z r IH]; intros x y [<-|Hin]; simpl in *; try lia; try tauto.
  - specialize (IH x x (or_introl eq_refl)). lia.
  - destruct Hin as [<-|Hin]; [lia|]. specialize (IH x y (or_intror Hin)). lia.
Qed.

Lemma In_boundaries tr iv :
  In iv tr -> In (begin iv) (boundaries tr) /\ In (end_ iv) (boundaries tr).
Proof.
  intros Hin. unfold boundaries. split; apply in_flat_map; exists iv; simpl; auto.
Qed.

(** [start] and [end] bound every stored interval. *)
Lemma tree_bounds tr iv :
  In iv tr -> start tr <= begin iv /\ end_ iv <= end_prop tr.
Proof.
  intros Hin. destruct (In_boundaries tr iv Hin) as [Hb He].
  unfold start, end_prop, tree_begin, tree_end.
  destruct (boundaries tr) as [|x r]; [destruct Hb|].
  split; [now apply fold_min_le|now apply fold_max_ge].
Qed.

Lemma no_member_nil (l : list (Interval V)) : (forall iv, ~ In iv l) -> l = [].
Proof.
  destruct l as [|x r]; [reflexivity|]. intros N. destruct (N x). now left.
Qed.

(** An assignment through the open slice [[:]] replaces everything stored
    by one interval from the least to the greatest bound; on an empty
    config the bounds are both 0 and the assignment raises [ValueError]. *)
Theorem open_slice_paint tr v :
  configure (KSlice None None None) v ([] : t V) = (Raise ValueError, []) /\
  (well_formed tr -> tr <> [] ->
   start tr < end_prop tr /\
   configure (KSlice None None None) v tr =
     (Return tt, [mkInterval (start tr) (end_prop tr) v])).
Proof.
  split; [reflexivity|].
  intros [ND NN] Hne. rewrite Forall_forall in NN.
  assert (Hlt : start tr < end_prop tr).
  { destruct tr as [|iv r]; [congruence|].
    pose proof (tree_bounds (iv :: r) iv (or_introl eq_refl)).
    pose proof (NN iv (or_introl eq_refl)). lia. }
  split; [assumption|].
  assert (E : chopped (start tr) (end_prop tr) tr = []).
  { apply no_member_nil. intros iv Hin. apply In_chopped in Hin.
    destruct Hin as [(Hin & Nenv & _)|[(o & Ho & Hb & _)|(o & Ho & He & _)]].
    - pose proof (tree_bounds tr iv Hin). lia.
    - pose proof (tree_bounds tr o Ho). lia.
    - pose proof (tree_bounds tr o Ho). lia. }
  change (configure (KSlice None None None) v tr)
    with (set_interval (start tr) (end_prop tr) v tr).
  unfold set_interval, bindM. rewrite chop_eq, E. unfold addi, add. simpl.
  unfold is_null. simpl. destruct (Z.leb_spec (end_prop tr) (start tr)); [lia|reflexivity].
Qed.

(** [configure] checks the shape of its key before it touches the index:
    a key that is no slice, tuple or label raises [TypeError], a tuple of
    the wrong arity or a zero step raises [ValueError], a label that does
    not decode or a stepped value that does not iterate raises what the
    decoding or the iteration raised; the index is unchanged. *)
Theorem configure_rejects_bad_keys tr v :
  (forall i, configure (KInt i) v tr = (Raise TypeError, tr)) /\
  (forall l, configure (KList l) v tr = (Raise TypeError, tr)) /\
  configure KOther v tr = (Raise TypeError, tr) /\
  (forall l, List.length l <> 2%nat -> List.length l <> 3%nat ->
             configure (KTuple l) v tr = (Raise ValueError, tr)) /\
  (forall b e, configure (KTuple [b; e; 0]) v tr = (Raise ValueError, tr)) /\
  (forall label ex, label_to_key label = Raise ex ->
                    configure (KStr label) v tr = (Raise ex, tr)) /\
  (forall b e st ex, st <> 0 -> v_iter v = Raise ex ->
                     configure (KTuple [b; e; st]) v tr = (Raise ex, tr)).
Proof.
  repeat split; try reflexivity.
  - intros l H2 H3. destruct l as [|k0 [|k1 [|k2 [|k3 r]]]]; simpl in *; try reflexivity; lia.
  - intros label ex E. unfold configure, lift, bindM. now rewrite E.
  - intros b e st ex Hst E.
    unfold configure, configure_dispatch, paint, bindM, ret, lift, py_range.
    destruct (Z.eqb_spec st 0); [contradiction|]. now rewrite E.
Qed.

(** On a null window [set_interval] raises once [chop] has run. *)
Lemma set_interval_null_raises tr b e v :
  well_formed tr -> e <= b ->
  set_interval b e v tr = (Raise ValueError, chopped b e tr).
Proof.
  intros Hwf Hnull.
  assert (W : well_formed (chopped b e tr)).
  { pose proof (preserves_well_formed_chop b e tr Hwf) as W. now rewrite chop_eq in W. }
  unfold set_interval, bindM. rewrite chop_eq. unfold addi, add.
  destruct (mem (mkInterval b e v) (chopped b e tr)) eqn:Hm.
  - apply mem_In in Hm. destruct W as [_ NN]. rewrite Forall_forall in NN.
    specialize (NN _ Hm). simpl in NN. lia.
  - unfold is_null. simpl. destruct (Z.leb_spec e b); [reflexivity|lia].
Qed.

(** A null window, [stop <= start], raises [ValueError], but only after
    [chop] has run: the index may have been cut, it never gains coverage,
    and for [start = stop] its coverage is what it was. *)
Theorem configure_null_window tr b e v (Hwf : well_formed tr) (Hnull : e <= b) :
  configure (KTuple [b; e]) v tr = (Raise ValueError, chopped b e tr) /\
  (forall p w, covers (chopped b e tr) p w -> covers tr p w) /\
  (b = e -> forall p w, covers (chopped b e tr) p w <-> covers tr p w) /\
  well_formed (chopped b e tr).
Proof.
  assert (W : well_formed (chopped b e tr)).
  { pose proof (preserves_well_formed_chop b e tr Hwf) as W. now rewrite chop_eq in W. }
  split; [|split; [|split]].
  - change (configure (KTuple [b; e]) v tr) with (set_interval b e v tr).
    now apply set_interval_null_raises.
  - intros p w. apply chopped_covers_sub.
  - intros -> p w. rewrite chopped_covers by lia. intuition lia.
  - exact W.
Qed.

(** The label of a pair of non-negative integers decodes to the pair. *)
Lemma label_decode b e :
  0 <= b -> 0 <= e -> label_to_key (py_str b ++ "-" ++ py_str e)%string = Return [b; e].
Proof.
  intros Hb He. unfold label_to_key.
  destruct (py_str_nonneg b Hb) as (ub & Hub & Eb & Vb).
  destruct (py_str_nonneg e He) as (ue & Hue & Ee & Ve).
  rewrite Eb, Ee.
  change ("-" ++ NilEmpty.string_of_uint ue)%string
    with (String "-" (NilEmpty.string_of_uint ue)).
  rewrite (py_split_append _ _ _ (uint_no_dash ub)),
          (py_split_no_sep _ _ (uint_no_dash ue)).
  simpl. rewrite !py_int_uint by assumption. simpl. now rewrite Vb, Ve.
Qed.

(** A label stands for its pair: for non-negative bounds, [configure] and
    [lookup] with the label of [(b, e)] do what they do with the pair. *)
Theorem label_key_is_pair_key tr b e v label
  (Hb : 0 <= b) (He : 0 <= e) (Hlabel : key_to_label [b; e] = Return label) :
  configure (KStr label) v tr = configure (KTuple [b; e]) v tr /\
  lookup (KStr label) tr = lookup (KTuple [b; e]) tr.
Proof.
  unfold key_to_label in Hlabel. injection Hlabel as <-.
  pose proof (label_decode b e Hb He) as D.
  change ("-" ++ py_str e)%string with (String "-" (py_str e)) in D.
  unfold configure, lookup, lift, bindM. rewrite D. split; reflexivity.
Qed.

(** [delete] removes nothing unless its key is a pair: a slice raises
    [AttributeError] (a slice has no [end]), a key of any other shape or a
    tuple of another arity raises [TypeError], and a label that does not
    decode raises what the decoding raised; the index is unchanged. *)
Theorem delete_rejects_other_keys tr :
  (forall s1 s2 s3, delete (KSlice s1 s2 s3) tr = (Raise AttributeError, tr)) /\
  (forall i, delete (KInt i) tr = (Raise TypeError, tr)) /\
  (forall l, delete (KList l) tr = (Raise TypeError, tr)) /\
  delete KOther tr = (Raise TypeError, tr) /\
  (forall l, List.length l <> 2%nat -> delete (KTuple l) tr = (Raise TypeError, tr)) /\
  (forall label ex, label_to_key label = Raise ex ->
                    delete (KStr label) tr = (Raise ex, tr)).
Proof.
  repeat split; try reflexivity.
  - intros l H2. destruct l as [|k0 [|k1 [|k2 r]]]; simpl in *; try reflexivity; lia.
  - intros label ex E. unfold delete, lift, bindM. now rewrite E.
Qed.

(** The first window of a descending range is reversed. *)
Lemma descending_windows start stop step (vals : list V) :
  step < 0 ->
  exists idx, py_range start stop step = Return idx /\
    (zip3 (removelast idx) (tl idx) vals = [] \/
     exists val rest, zip3 (removelast idx) (tl idx) vals
                      = (start, start + step, val) :: rest) /\
    (stop < start + step -> vals <> [] ->
     zip3 (removelast idx) (tl idx) vals <> []).
Proof.
  intros Hstep. unfold py_range.
  destruct (Z.eqb_spec step 0) as [E0|N0]; [lia|].
  destruct (Z.ltb_spec 0 step) as [L0|G0]; [lia|].
  set (n := Z.to_nat ((start - stop - step - 1) / - step)).
  exists (map (fun i => start + Z.of_nat i * step) (seq 0 n)).
  split; [reflexivity|]. split.
  - destruct n as [|[|n']]; [now left|now left|].
    destruct vals as [|val vals]; [now left|]. right.
    cbn [seq map removelast tl zip3]. exists val. eexists.
    replace (start + Z.of_nat 0 * step) with start by lia.
    replace (start + Z.of_nat 1 * step) with (start + step) by lia.
    reflexivity.
  - intros Hlong Hvals.
    assert (2 <= (start - stop - step - 1) / - step).
    { apply Z.div_le_lower_bound; lia. }
    assert (Hn : (2 <= n)%nat) by (unfold n; lia).
    destruct n as [|[|n']]; try lia.
    destruct vals as [|val vals]; [congruence|].
    cbn [seq map removelast tl zip3]. discriminate.
Qed.

(** A stepped assignment with a negative step never paints: it returns
    with the index untouched when there is no window or no value, and
    otherwise raises [ValueError] on its first window, which is reversed;
    the index gains no coverage. *)
Theorem negative_step_never_paints tr start stop step v vals
  (Hwf : well_formed tr) (Hstep : step < 0) (Hiter : v_iter v = Return vals) :
  let r := configure (KTuple [start; stop; step]) v tr in
  (r = (Return tt, tr) \/ r = (Raise ValueError, chopped start (start + step) tr)) /\
  (forall p w, covers (snd r) p w -> covers tr p w) /\
  (stop < start + step -> vals <> [] -> fst r = Raise ValueError).
Proof.
  intros r.
  destruct (descending_windows start stop step vals Hstep) as (idx & Hr & Hw & Hlong).
  assert (Er : r = paint_each (zip3 (removelast idx) (tl idx) vals) tr).
  { unfold r. now apply configure_stepped. }
  assert (Hfirst : forall val rest,
             paint_each ((start, start + step, val) :: rest) tr
             = (Raise ValueError, chopped start (start + step) tr)).
  { intros val rest. unfold paint_each. simpl. unfold bindM.
    now rewrite (set_interval_null_raises tr start (start + step) val Hwf ltac:(lia)). }
  destruct Hw as [E|(val & rest & E)].
  - rewrite E in Er. assert (R : r = (Return tt, tr)) by (rewrite Er; reflexivity).
    split; [now left|]. split.
    + rewrite R. simpl. auto.
    + intros Hl Hv. destruct (Hlong Hl Hv E).
  - rewrite E, Hfirst in Er. split; [now right|]. split.
    + rewrite Er. simpl. intros p w. apply chopped_covers_sub.
    + intros _ _. now rewrite Er.
Qed.

End KeyShapes.

(** ** Sequence and slice queries, item assignment *)

Section Queries.
Context {V : Type} `{PyValue V}.

Implicit Types (tr : t V) (iv : Interval V) (b e p : Z) (v w : V).

Lemma mapM_Return {A B : Type} (f : A -> outcome B) (l : list A) :
  forall bs, mapM f l = Return bs <-> Forall2 (fun a x => f a = Return x) l bs.
Proof.
  induction l as [|a r IH]; intros bs; simpl.
  - split; [intros E; injection E as <-; constructor|intros F; now inversion F].
  - destruct (f a) as [x|ex] eqn:Ea; simpl.
    + destruct (mapM f r) as [xs|ex] eqn:Er; simpl.
      * split.
        -- intros E. injection E as <-. constructor; [assumption|now apply IH].
        -- intros F. inversion F as [|? y ? ys Hy Hys]; subst.
           apply IH in Hys. congruence.
      * split; [discriminate|].
        intros F. inversion F as [|? y ? ys Hy Hys]; subst.
        apply IH in Hys. discriminate.
    + split; [discriminate|]. intros F. inversion F; subst. congruence.
Qed.

Lemma mapM_Raise {A B : Type} (f : A -> outcome B) (l : list A) (ex : exn) :
  mapM f l = Raise ex -> exists a, In a l /\ f a = Raise ex.
Proof.
  induction l as [|a r IH]; simpl; [discriminate|].
  destruct (f a) as [x|ex'] eqn:Ea; simpl.
  - destruct (mapM f r) as [xs|ex'] eqn:Er; simpl; [discriminate|].
    intros E. injection E as ->. destruct (IH eq_refl) as (a' & Hin & Ha'). eauto.
  - intros E. injection E as ->. eauto.
Qed.

Lemma mapM_Raise_intro {A B : Type} (f : A -> outcome B) (l : list A) a ex :
  In a l -> f a = Raise ex -> exists ex', mapM f l = Raise ex'.
Proof.
  induction l as [|a' r IH]; simpl; [tauto|].
  intros [->|Hin] Ea.
  - rewrite Ea. simpl. eauto.
  - destruct (f a'); simpl; [|eauto].
    destruct (IH Hin Ea) as (ex' & ->). simpl. eauto.
Qed.

Lemma lookup_point_Return p tr v :
  lookup (KInt p) tr = Return (RValue v) <-> value p tr = Return v.
Proof.
  rewrite lookup_point. destruct (value p tr); simpl; split; congruence.
Qed.

(** A query with a sequence of indices is the point query at each index,
    in order: it returns one value per index when every index is covered,
    and raises [KeyError] when some index is not.  A tuple that is not a
    pair is such a sequence. *)
Theorem lookup_sequence tr (l : list Z) :
  (forall vs, lookup (KList l) tr = Return (RList vs) <->
              Forall2 (fun i v => lookup (KInt i) tr = Return (RValue v)) l vs) /\
  (lookup (KList l) tr = Raise KeyError <->
   exists i, In i l /\ lookup (KInt i) tr = Raise KeyError) /\
  (List.length l <> 2%nat -> lookup (KTuple l) tr = lookup (KList l) tr).
Proof.
  assert (E : lookup (KList l) tr = (vs <- values_at l tr ;; Return (RList vs)))
    by reflexivity.
  assert (P : forall i v, lookup (KInt i) tr = Return (RValue v) <-> value i tr = Return v)
    by (intros; apply lookup_point_Return).
  assert (F : forall vs, values_at l tr = Return vs <->
                Forall2 (fun i v => lookup (KInt i) tr = Return (RValue v)) l vs).
  { intros vs. unfold values_at. rewrite mapM_Return. split; intros F;
      (eapply Forall2_impl; [|exact F]); intros i v; apply P. }
  split; [|split].
  - intros vs. rewrite <- F, E.
    destruct (values_at l tr) as [xs|ex]; simpl; split; congruence.
  - rewrite E. split.
    + destruct (values_at l tr) as [xs|ex] eqn:Em; [discriminate|].
      cbn [bind]. intros R. injection R as ->. apply mapM_Raise in Em.
      destruct Em as (i & Hin & Ei). exists i. split; [assumption|].
      rewrite lookup_point, Ei. reflexivity.
    + intros (i & Hin & Ei).
      assert (Ev : value i tr = Raise KeyError).
      { rewrite lookup_point in Ei. destruct (value_cases i tr) as [[v Ev]|Ev];
          rewrite Ev in *; [discriminate|reflexivity]. }
      destruct (mapM_Raise_intro (fun i => value i tr) l i KeyError Hin Ev) as (ex & Em).
      unfold values_at. rewrite Em. cbn [bind]. f_equal.
      apply mapM_Raise in Em. destruct Em as (j & _ & Ej).
      destruct (value_cases j tr) as [[v Ej']|Ej']; congruence.
  - intros Hlen. destruct l as [|k0 [|k1 [|k2 r]]]; simpl in *; try reflexivity. lia.
Qed.

Lemma In_tree_overlap iv b e tr :
  In iv (IntervalTree.overlap b e tr) <->
  In iv tr /\ b < e /\ begin iv < e /\ b < end_ iv.
Proof.
  unfold IntervalTree.overlap. destruct (Z.leb_spec e b).
  - simpl. split; [tauto|]. intros (_ & ? & _). lia.
  - rewrite filter_In, andb_true_iff, !Z.ltb_lt. tauto.
Qed.

(** A slice query without step returns the stored intervals clipped to the
    window: each one lies inside the window and is not null, and together
    they carry exactly the coverage of the config inside the window.  A
    missing bound, and a bound of 0, stand for the least or greatest bound
    stored. *)
Theorem slice_query_clips tr kstart kstop (Hwf : well_formed tr) :
  let b := or_default kstart (start tr) in
  let e := or_default kstop (end_prop tr) in
  exists clipped,
    lookup (KSlice kstart kstop None) tr = Return (RIntervals clipped) /\
    Forall (fun c => b <= begin c /\ end_ c <= e /\ begin c < end_ c) clipped /\
    (forall p w, covers clipped p w <-> covers tr p w /\ b <= p < e).
Proof.
  intros b e. exists (IntervalConfig.overlap b e tr).
  split; [reflexivity|].
  destruct Hwf as [_ NN]. rewrite Forall_forall in NN.
  assert (M : forall c, In c (IntervalConfig.overlap b e tr) <->
              exists iv, In iv tr /\ b < e /\ begin iv < e /\ b < end_ iv /\
                         c = mkInterval (Z.max (begin iv) b) (Z.min (end_ iv) e) (data iv)).
  { intros c. unfold IntervalConfig.overlap. rewrite in_map_iff. split.
    - intros (iv & <- & Hin).
      apply (Permutation_in _ (sorted_perm _)) in Hin. apply In_tree_overlap in Hin.
      exists iv. tauto.
    - intros (iv & Hin & ? & ? & ? & ->). exists iv. split; [reflexivity|].
      apply (Permutation_in _ (Permutation_sym (sorted_perm _))).
      apply In_tree_overlap. tauto. }
  split.
  - apply Forall_forall. intros c Hc. apply M in Hc.
    destruct Hc as (iv & Hin & ? & ? & ? & ->). specialize (NN iv Hin). simpl. lia.
  - intros p w. unfold covers. split.
    + intros (c & Hc & Hp & Hd). apply M in Hc.
      destruct Hc as (iv & Hin & ? & ? & ? & ->). simpl in *.
      split; [exists iv; repeat split; auto; lia|lia].
    + intros [(iv & Hin & Hp & Hd) Hw].
      exists (mkInterval (Z.max (begin iv) b) (Z.min (end_ iv) e) (data iv)).
      split; [apply M; exists iv; repeat split; auto; lia|]. simpl. split; [lia|assumption].
Qed.

(** Item assignment on a config without parent: a slice key paints, and
    the painted value is what indexing returns inside the window; a tuple
    key is taken for a composite key whose head is not a key of the config
    and raises [KeyError] ([IndexError] when empty), painting nothing. *)
Theorem setitem_slice_paints_tuple_raises tr v :
  (forall b e, b < e ->
     exists tr', IntervalViews.setitem (KSlice (Some b) (Some e) None) v tr
                 = (Return tt, tr') /\
                 forall p, b <= p < e -> getitem (KInt p) tr' = Return (RValue v)) /\
  (forall k0 rest, IntervalViews.setitem (KTuple (k0 :: rest)) v tr = (Raise KeyError, tr)) /\
  IntervalViews.setitem (KTuple []) v tr = (Raise IndexError, tr).
Proof.
  split; [|split; reflexivity].
  intros b e Hw. exists (painted b e v tr). split.
  - change (IntervalViews.setitem (KSlice (Some b) (Some e) None) v tr)
      with (set_interval b e v tr).
    now apply set_interval_eq.
  - intros p Hp. change (getitem (KInt p) (painted b e v tr))
      with (lookup (KInt p) (painted b e v tr)).
    apply lookup_point_of_covers.
    + apply painted_covers; auto.
    + intros w C. apply painted_covers in C; tauto.
Qed.

(** [__setstate__] builds a tree that holds exactly the given triples,
    once each, when none of them is null, and otherwise raises
    [ValueError] and keeps the tree it had. *)
Theorem setstate_builds_or_rejects (d : list (Interval V)) tr0 :
  ((exists iv, In iv d /\ end_ iv <= begin iv) ->
   setstate d tr0 = (Raise ValueError, tr0)) /\
  (Forall (fun iv => begin iv < end_ iv) d ->
   exists tr', setstate d tr0 = (Return tt, tr') /\
               well_formed tr' /\ (forall iv, In iv tr' <-> In iv d)).
Proof.
  unfold setstate, init. split.
  - intros (iv & Hin & Hn).
    assert (E : existsb is_null d = true).
    { apply existsb_exists. exists iv. split; [assumption|].
      unfold is_null. now apply Z.leb_le. }
    now rewrite E.
  - intros NN.
    assert (E : existsb is_null d = false).
    { destruct (existsb is_null d) eqn:E; [|reflexivity].
      apply existsb_exists in E. destruct E as (iv & Hin & Hn).
      rewrite Forall_forall in NN. specialize (NN iv Hin).
      unfold is_null in Hn. apply Z.leb_le in Hn. lia. }
    rewrite E. eexists. split; [reflexivity|].
    clear E. induction d as [|x r IH]; simpl.
    + split; [split; constructor|tauto].
    + inversion NN as [|? ? Hx Hr]; subst. destruct (IH Hr) as ([ND NNr] & M).
      destruct (mem x _) eqn:Hm.
      * split; [split; assumption|]. apply mem_In in Hm.
        intros iv. rewrite M. split; [auto|]. intros [<-|?]; [now apply M|assumption].
      * split; [split|].
        -- constructor; [now apply mem_false|assumption].
        -- constructor; assumption.
        -- intros iv. simpl. rewrite M. tauto.
Qed.

End Queries.

(** ** Facts about dictionaries *)

Section DictFacts.
Context {K A : Type} (key_eqb : K -> K -> bool).
Hypothesis key_eqb_eq : forall x y, key_eqb x y = true <-> x = y.

Implicit Types (d l : list (K * A)).

Lemma key_eqb_refl k : key_eqb k k = true.
Proof. now apply key_eqb_eq. Qed.

Lemma key_eqb_neq k k' : k <> k' -> key_eqb k k' = false.
Proof.
  intros N. destruct (key_eqb k k') eqn:E; [|reflexivity].
  apply key_eqb_eq in E. contradiction.
Qed.

Lemma dict_get_Some k a d : dict_get key_eqb k d = Some a -> In (k, a) d.
Proof.
  induction d as [|[k' a'] r IH]; simpl; [discriminate|].
  destruct (key_eqb k k') eqn:E.
  - apply key_eqb_eq in E. intros G. injection G as ->. subst. now left.
  - auto.
Qed.

Lemma dict_get_None k d : dict_get key_eqb k d = None <-> ~ In k (map fst d).
Proof.
  induction d as [|[k' a'] r IH]; simpl; [tauto|].
  destruct (key_eqb k k') eqn:E.
  - apply key_eqb_eq in E. subst. split; [discriminate|]. intros N. destruct N. now left.
  - rewrite IH. split; [|tauto]. intros N [->|Hin]; [|tauto].
    rewrite key_eqb_refl in E. discriminate.
Qed.

Lemma dict_get_set_same k a d : dict_get key_eqb k (dict_set key_eqb k a d) = Some a.
Proof.
  induction d as [|[k' a'] r IH]; simpl.
  - now rewrite key_eqb_refl.
  - destruct (key_eqb k k') eqn:E; simpl; rewrite E; [reflexivity|exact IH].
Qed.

Lemma dict_get_set_other k k' a d :
  k' <> k -> dict_get key_eqb k' (dict_set key_eqb k a d) = dict_get key_eqb k' d.
Proof.
  intros N. induction d as [|[k2 a2] r IH]; simpl.
  - now rewrite (key_eqb_neq _ _ N).
  - destruct (key_eqb k k2) eqn:E; simpl.
    + apply key_eqb_eq in E. subst. now rewrite (key_eqb_neq _ _ N).
    + now rewrite IH.
Qed.

Lemma dict_set_keys k a d k' :
  In k' (map fst (dict_set key_eqb k a d)) <-> k' = k \/ In k' (map fst d).
Proof.
  induction d as [|[k2 a2] r IH]; simpl; [intuition|].
  destruct (key_eqb k k2) eqn:E; simpl.
  - apply key_eqb_eq in E. subst. intuition.
  - rewrite IH. intuition.
Qed.

Lemma dict_set_In k a d k' a' :
  In (k', a') (dict_set key_eqb k a d) -> (k' = k /\ a' = a) \/ In (k', a') d.
Proof.
  induction d as [|[k2 a2] r IH]; simpl.
  - intros [E|[]]. injection E as <- <-. auto.
  - destruct (key_eqb k k2) eqn:E; simpl.
    + apply key_eqb_eq in E. subst. intros [G|Hin]; [injection G as <- <-|]; auto.
    + intros [G|Hin]; [auto|]. destruct (IH Hin); auto.
Qed.

Lemma dict_set_fresh k a d :
  ~ In k (map fst d) -> dict_set key_eqb k a d = d ++ [(k, a)].
Proof.
  induction d as [|[k2 a2] r IH]; simpl; [reflexivity|].
  intros N. rewrite key_eqb_neq by (intros ->; apply N; now left).
  f_equal. apply IH. tauto.
Qed.

Lemma dict_set_NoDup k a d :
  NoDup (map fst d) -> NoDup (map fst (dict_set key_eqb k a d)).
Proof.
  induction d as [|[k2 a2] r IH]; simpl; intros ND.
  - repeat constructor. tauto.
  - inversion ND as [|? ? Hn Hr]; subst. destruct (key_eqb k k2) eqn:E; simpl.
    + now constructor.
    + constructor; [|auto]. rewrite dict_set_keys. intros [->|Hin]; [|tauto].
      rewrite key_eqb_refl in E. discriminate.
Qed.

Lemma dict_fold_spec l :
  forall d, NoDup (map fst d) ->
    let r := fold_left (fun d kv => dict_set key_eqb (fst kv) (snd kv) d) l d in
    NoDup (map fst r) /\
    (forall k a, In (k, a) r -> In (k, a) d \/ In (k, a) l) /\
    (forall k, In k (map fst r) <-> In k (map fst d) \/ In k (map fst l)).
Proof.
  induction l as [|[k a] l IH]; intros d ND; simpl.
  - repeat split; auto; tauto.
  - destruct (IH (dict_set key_eqb k a d) (dict_set_NoDup k a d ND)) as (N & I & Kk).
    simpl in *. split; [exact N|]. split.
    + intros k' a' Hin. destruct (I k' a' Hin) as [Hd|Hl]; [|auto].
      destruct (dict_set_In _ _ _ _ _ Hd) as [[-> ->]|?]; auto.
    + intros k'. rewrite Kk, dict_set_keys. intuition.
Qed.

Lemma dict_fold_distinct l :
  forall d, NoDup (map fst (d ++ l)) ->
    fold_left (fun d kv => dict_set key_eqb (fst kv) (snd kv) d) l d = d ++ l.
Proof.
  induction l as [|[k a] l IH]; intros d ND; simpl.
  - now rewrite app_nil_r.
  - rewrite dict_set_fresh.
    + rewrite IH; rewrite <- app_assoc; [reflexivity|exact ND].
    + rewrite map_app in ND. simpl in ND. apply NoDup_remove_2 in ND.
      intros Hin. apply ND. apply in_app_iff. now left.
Qed.

End DictFacts.

Lemma NoDup_map_inj {A B : Type} (f : A -> B) (l : list A) :
  NoDup l -> (forall x y, In x l -> In y l -> f x = f y -> x = y) -> NoDup (map f l).
Proof.
  induction 1 as [|x r Hx ND IH]; intros Inj; simpl; constructor.
  - intros Hin. apply in_map_iff in Hin. destruct Hin as (y & Ey & Hy).
    assert (y = x) by (apply Inj; simpl; auto). subst. contradiction.
  - apply IH. intros a b Ha Hb. apply Inj; simpl; auto.
Qed.

(** ** The views of an IntervalConfig *)

Section Views.
Context {V : Type} `{PyValue V}.

Implicit Types (tr : t V) (iv : Interval V) (p : Z) (v : V).

Lemma pair_eqb_eq (k k' : Z * Z) : IntervalViews.pair_eqb k k' = true <-> k = k'.
Proof.
  unfold IntervalViews.pair_eqb. rewrite andb_true_iff, !Z.eqb_eq.
  destruct k, k'; simpl. split; [intros [-> ->]; reflexivity|intros E; inversion E; auto].
Qed.

Lemma In_items tr k v :
  In (k, v) (IntervalViews.items tr) <->
  exists iv, In iv tr /\ k = (begin iv, end_ iv) /\ v = data iv.
Proof.
  unfold IntervalViews.items. rewrite in_map_iff. split.
  - intros (iv & E & Hin). injection E as <- <-. exists iv.
    split; [|auto]. eapply Permutation_in; [apply sorted_perm|assumption].
  - intros (iv & Hin & -> & ->). exists iv. split; [reflexivity|].
    eapply Permutation_in; [symmetry; apply sorted_perm|assumption].
Qed.

(** In a non-overlapping config of non-null intervals, an interval is
    determined by its bounds. *)
Lemma keys_determine tr x y :
  well_formed tr -> non_overlapping tr -> In x tr -> In y tr ->
  (begin x, end_ x) = (begin y, end_ y) -> x = y.
Proof.
  intros [_ NN] NO Hx Hy E. injection E as Eb Ee.
  destruct (Interval_eqb x y) eqn:Exy; [now apply Interval_eqb_eq|].
  assert (Hd : x <> y).
  { intros ->. rewrite (proj2 (Interval_eqb_eq y y) eq_refl) in Exy. discriminate. }
  rewrite Forall_forall in NN. pose proof (NN x Hx). pose proof (NN y Hy).
  destruct (NO x y Hx Hy Hd); lia.
Qed.

(** [items] lists one entry per stored interval, in the order of [_keys]
    and [values], sorted by [(begin, end)].  Every value a point query
    returns is the value of an item whose key contains the point, and in a
    non-overlapping config every item gives the point query on all of its
    range. *)
Theorem items_agree_with_lookup tr :
  map fst (IntervalViews.items tr) = IntervalViews._keys tr /\
  map snd (IntervalViews.items tr) = IntervalViews.values tr /\
  List.length (IntervalViews.items tr) = IntervalViews.len tr /\
  StronglySorted (fun k k' : Z * Z =>
                    fst k < fst k' \/ (fst k = fst k' /\ snd k <= snd k'))
                 (IntervalViews._keys tr) /\
  (forall p v, lookup (KInt p) tr = Return (RValue v) ->
               exists k, In (k, v) (IntervalViews.items tr) /\ fst k <= p < snd k) /\
  (non_overlapping tr ->
   forall k v p, In (k, v) (IntervalViews.items tr) -> fst k <= p < snd k ->
                 lookup (KInt p) tr = Return (RValue v)).
Proof.
  unfold IntervalViews.items, IntervalViews._keys, IntervalViews.values, IntervalViews.len.
  split; [now rewrite map_map|]. split; [now rewrite map_map|].
  split; [rewrite length_map; apply Permutation_length, sorted_perm|].
  split; [|split].
  - pose proof (sorted_sorted tr) as S.
    induction S as [|a r Sr IH Fa]; simpl; constructor; [assumption|].
    apply Forall_forall. intros k Hk. apply in_map_iff in Hk.
    destruct Hk as (a' & <- & Ha'). rewrite Forall_forall in Fa.
    apply (ile_key_le a a'). now apply Fa.
  - intros p v E. apply lookup_point_Return, value_Return_covers in E.
    destruct E as (iv & Hin & Hp & Hd). exists (begin iv, end_ iv).
    split; [|exact Hp]. apply In_items. exists iv. auto.
  - intros NO k v p Hin Hp. apply In_items in Hin.
    destruct Hin as (iv & Hin & -> & ->). simpl in Hp.
    apply lookup_point_of_covers; [exists iv; auto|].
    intros w (iv' & Hin' & Hp' & <-).
    destruct (Interval_eqb iv iv') eqn:E; [apply Interval_eqb_eq in E; now subst|].
    assert (Hd : iv <> iv').
    { intros ->. rewrite (proj2 (Interval_eqb_eq iv' iv') eq_refl) in E. discriminate. }
    destruct (NO iv iv' Hin Hin' Hd); lia.
Qed.

(** [to_dict] has one entry per distinct [(begin, end)] stored, each with
    the value of a stored interval of those bounds; for a non-overlapping
    config of non-null intervals it is the list of [items]. *)
Theorem to_dict_entries tr :
  NoDup (map fst (IntervalViews.to_dict tr)) /\
  (forall k v, In (k, v) (IntervalViews.to_dict tr) ->
               exists iv, In iv tr /\ k = (begin iv, end_ iv) /\ v = data iv) /\
  (forall iv, In iv tr ->
              In (begin iv, end_ iv) (map fst (IntervalViews.to_dict tr))) /\
  (well_formed tr -> non_overlapping tr ->
   IntervalViews.to_dict tr = IntervalViews.items tr).
Proof.
  unfold IntervalViews.to_dict, dict_of_pairs.
  destruct (dict_fold_spec IntervalViews.pair_eqb pair_eqb_eq
              (map (fun iv => ((begin iv, end_ iv), data iv)) (sorted tr)) []
              (NoDup_nil _)) as (N & I & Kk).
  split; [exact N|]. split; [|split].
  - intros k v Hin. destruct (I k v Hin) as [[]|Hl]. now apply In_items.
  - intros iv Hin. apply Kk. right. rewrite map_map. simpl.
    apply in_map_iff. exists iv. split; [reflexivity|].
    eapply Permutation_in; [symmetry; apply sorted_perm|assumption].
  - intros W NO. apply (dict_fold_distinct IntervalViews.pair_eqb pair_eqb_eq _ []).
    simpl. rewrite map_map. simpl.
    apply NoDup_map_inj.
    + eapply Permutation_NoDup; [symmetry; apply sorted_perm|apply W].
    + intros x y Hx Hy. apply (keys_determine tr); try assumption;
        (eapply Permutation_in; [apply sorted_perm|assumption]).
Qed.

(** With non-negative bounds every label of [to_label_dict] is the label
    of a stored interval, carries that interval's value and decodes to its
    bounds; for a non-overlapping config of non-null intervals there is
    one entry per stored interval. *)
Theorem to_label_dict_decodes tr
  (Hnonneg : Forall (fun iv => 0 <= begin iv /\ 0 <= end_ iv) tr) :
  (forall label v, In (label, v) (IntervalViews.to_label_dict tr) ->
     exists iv, In iv tr /\ v = data iv /\
                key_to_label [begin iv; end_ iv] = Return label /\
                label_to_key label = Return [begin iv; end_ iv]) /\
  (well_formed tr -> non_overlapping tr ->
   List.length (IntervalViews.to_label_dict tr) = IntervalViews.len tr).
Proof.
  rewrite Forall_forall in Hnonneg.
  unfold IntervalViews.to_label_dict, dict_of_pairs.
  set (pairs := map (fun iv => ((py_str (begin iv) ++ "-" ++ py_str (end_ iv))%string,
                                data iv)) (sorted tr)).
  destruct (dict_fold_spec String.eqb String.eqb_eq pairs [] (NoDup_nil _)) as (N & I & Kk).
  split.
  - intros label v Hin. destruct (I label v Hin) as [[]|Hl].
    unfold pairs in Hl. apply in_map_iff in Hl. destruct Hl as (iv & E & Hiv).
    injection E as <- <-.
    assert (Htr : In iv tr) by (eapply Permutation_in; [apply sorted_perm|assumption]).
    exists iv. split; [assumption|]. split; [reflexivity|]. split; [reflexivity|].
    destruct (Hnonneg iv Htr). now apply label_decode.
  - intros W NO.
    rewrite (dict_fold_distinct String.eqb String.eqb_eq pairs []).
    + simpl. unfold pairs, IntervalViews.len. rewrite length_map.
      apply Permutation_length, sorted_perm.
    + simpl. unfold pairs. rewrite map_map. simpl.
      apply NoDup_map_inj.
      * eapply Permutation_NoDup; [symmetry; apply sorted_perm|apply W].
      * intros x y Hx Hy E.
        assert (Hx' : In x tr) by (eapply Permutation_in; [apply sorted_perm|assumption]).
        assert (Hy' : In y tr) by (eapply Permutation_in; [apply sorted_perm|assumption]).
        apply (keys_determine tr); try assumption.
        destruct (Hnonneg x Hx'), (Hnonneg y Hy').
        match type of E with
        | ?lx = ?ly =>
            assert (Dx : label_to_key lx = Return [begin x; end_ x])
              by (apply label_decode; assumption);
            assert (Dy : label_to_key ly = Return [begin y; end_ y])
              by (apply label_decode; assumption)
        end.
        rewrite E in Dx. rewrite Dx in Dy. injection Dy as -> ->. reflexivity.
Qed.

End Views.

(** ** The scope chain of a DictConfig *)

Section ScopeChain.
Context {V : Type}.

Implicit Types (c p : DictConfig.config V) (a : DictConfig.attrs V)
         (n : DictConfig.Name) (v obj : V).

Local Abbreviation dget := (dict_get DictConfig.name_eqb).
Local Abbreviation dset := (dict_set DictConfig.name_eqb).

Lemma name_mem_In n (l : list DictConfig.Name) :
  DictConfig.name_mem n l = true <-> In n l.
Proof.
  unfold DictConfig.name_mem, DictConfig.name_eqb. rewrite existsb_exists. split.
  - intros (x & Hin & E). apply String.eqb_eq in E. now subst.
  - intros Hin. exists n. split; [assumption|apply String.eqb_refl].
Qed.

Lemma dget_bound n a : (exists v, dget n a = Some v) <-> In n (map fst a).
Proof.
  pose proof (dict_get_None String.eqb String.eqb_eq n a) as N.
  change String.eqb with DictConfig.name_eqb in N.
  destruct (dget n a) as [v|] eqn:E; split.
  - intros _. destruct (in_dec string_dec n (map fst a)) as [Hin|Hn]; [assumption|].
    apply (proj2 N) in Hn.
    assert (X : Some v = None) by (rewrite <- E; exact Hn). discriminate.
  - eauto.
  - intros [v Ev]. discriminate.
  - intros Hin. exfalso. now apply (proj1 N).
Qed.

Lemma keys_add_spec (l acc : list DictConfig.Name) :
  let r := fold_right (fun n acc => if DictConfig.name_mem n acc then acc else n :: acc)
                      acc l in
  (forall n, In n r <-> In n l \/ In n acc) /\ (NoDup acc -> NoDup r).
Proof.
  induction l as [|x l IH]; simpl; [split; [tauto|auto]|].
  destruct IH as [M N].
  destruct (DictConfig.name_mem x _) eqn:E.
  - apply name_mem_In in E. split; [|exact N].
    intros n. rewrite M. split; [tauto|]. intros [[<-|?]|?]; auto. now apply M.
  - split.
    + intros n. simpl. rewrite M. tauto.
    + intros ND. constructor; [|auto]. intros Hin. apply name_mem_In in Hin. congruence.
Qed.

Lemma keys_spec c :
  NoDup (DictConfig.keys c) /\
  (forall n, In n (DictConfig.keys c) <->
             exists a, In a c /\ In n (DictConfig._keys a)).
Proof.
  induction c as [|a p [ND M]]; simpl.
  - split; [constructor|]. intros n. split; [tauto|]. intros (a & [] & _).
  - destruct (keys_add_spec (DictConfig._keys a) (DictConfig.keys p)) as [Ma Na].
    split; [auto|]. intros n. rewrite Ma, M. split.
    + intros [Hin|(a' & Ha' & Hin)]; [exists a; auto|exists a'; auto].
    + intros (a' & [<-|Ha'] & Hin); [now left|right; eauto].
Qed.

(** [keys] lists each name bound in the config or in an ancestor, once. *)
Theorem dict_keys_union c :
  NoDup (DictConfig.keys c) /\
  (forall n, In n (DictConfig.keys c) <->
             exists a, In a c /\ In n (DictConfig._keys a)).
Proof. apply keys_spec. Qed.

Lemma dict_lookup_bound c n :
  (exists v, DictConfig.lookup c n = Return v) <->
  exists a, In a c /\ In n (DictConfig._keys a).
Proof.
  induction c as [|a p IH]; simpl.
  - split; [intros [v E]; discriminate|intros (a & [] & _)].
  - destruct (dget n a) as [v|] eqn:E.
    + split; [|eauto]. intros _. exists a. split; [now left|].
      apply dget_bound. eauto.
    + rewrite IH. split.
      * intros (a' & Ha' & Hin). exists a'. auto.
      * intros (a' & [<-|Ha'] & Hin); [|eauto].
        apply dget_bound in Hin. destruct Hin as [v Ev]. congruence.
Qed.

Lemma dict_lookup_cases c n :
  (exists v, DictConfig.lookup c n = Return v) \/ DictConfig.lookup c n = Raise KeyError.
Proof.
  induction c as [|a p IH]; simpl; [now right|].
  destruct (dget n a); eauto.
Qed.

Lemma contains_lookup c n :
  DictConfig.contains c n = true <-> exists v, DictConfig.lookup c n = Return v.
Proof.
  unfold DictConfig.contains. rewrite name_mem_In, dict_lookup_bound.
  apply keys_spec.
Qed.

(** The containment test of a [DictConfig] agrees with [lookup]: a name is
    in the config exactly when [lookup] returns, and [lookup] raises
    nothing but [KeyError].  A binding of the config itself hides the
    ancestors; without one the parent answers. *)
Theorem dict_contains_iff_lookup c n :
  (DictConfig.contains c n = true <-> exists v, DictConfig.lookup c n = Return v) /\
  (DictConfig.contains c n = false <-> DictConfig.lookup c n = Raise KeyError) /\
  (forall a p p', In n (DictConfig._keys a) ->
                  DictConfig.lookup (a :: p) n = DictConfig.lookup (a :: p') n) /\
  (forall a p, ~ In n (DictConfig._keys a) ->
               DictConfig.lookup (a :: p) n = DictConfig.lookup p n).
Proof.
  pose proof (contains_lookup c n) as T.
  split; [exact T|]. split; [|split].
  - destruct (dict_lookup_cases c n) as [[v E]|E].
    + assert (C : DictConfig.contains c n = true) by (apply T; eauto).
      rewrite C, E. split; discriminate.
    + destruct (DictConfig.contains c n) eqn:C; [|tauto].
      destruct (proj1 T eq_refl) as [v Ev]. congruence.
  - intros a p p' Hin. simpl. apply dget_bound in Hin. destruct Hin as [v ->]. reflexivity.
  - intros a p Hn. simpl. destruct (dget n a) as [v|] eqn:E; [|reflexivity].
    exfalso. apply Hn. apply dget_bound. eauto.
Qed.

Lemma configure_binds a p n v :
  DictConfig.lookup (DictConfig.configure n v (a :: p)) n = Return v /\
  (forall n', n' <> n ->
     DictConfig.lookup (DictConfig.configure n v (a :: p)) n' = DictConfig.lookup (a :: p) n').
Proof.
  simpl. unfold DictConfig.name_eqb. split.
  - now rewrite (dict_get_set_same String.eqb String.eqb_eq).
  - intros n' Hne. now rewrite (dict_get_set_other String.eqb String.eqb_eq).
Qed.

(** [configure] binds the name in the config itself: [lookup] then returns
    the value, every other name resolves as before, and the ancestors are
    the same objects with the same bindings. *)
Theorem dict_configure_lookup a p n v :
  let c' := DictConfig.configure n v (a :: p) in
  DictConfig.lookup c' n = Return v /\
  (forall n', n' <> n -> DictConfig.lookup c' n' = DictConfig.lookup (a :: p) n') /\
  tl c' = p /\
  DictConfig.contains c' n = true.
Proof.
  intros c'. unfold c'. simpl.
  assert (L : DictConfig.lookup (dset n v a :: p) n = Return v).
  { simpl. unfold DictConfig.name_eqb.
    now rewrite (dict_get_set_same String.eqb String.eqb_eq). }
  split; [exact L|]. split; [|split; [reflexivity|]].
  - intros n' Hne. simpl. unfold DictConfig.name_eqb.
    now rewrite (dict_get_set_other String.eqb String.eqb_eq).
  - apply contains_lookup. eauto.
Qed.

(** [items] never raises: it pairs every key with what [lookup] returns
    for it. *)
Theorem dict_items_total c :
  exists l, DictConfig.items c = Return l /\
            map fst l = DictConfig.keys c /\
            (forall n v, In (n, v) l -> DictConfig.lookup c n = Return v).
Proof.
  unfold DictConfig.items.
  assert (G : forall ks, (forall n, In n ks -> exists v, DictConfig.lookup c n = Return v) ->
            exists l, mapM (fun n => v <- DictConfig.lookup c n ;; Return (n, v)) ks = Return l /\
                      map fst l = ks /\
                      (forall n v, In (n, v) l -> DictConfig.lookup c n = Return v)).
  { induction ks as [|k ks IH]; intros B; simpl.
    - exists []. repeat split; auto. intros n v [].
    - destruct (B k (or_introl eq_refl)) as [vk Ek].
      destruct (IH (fun n Hn => B n (or_intror Hn))) as (l & El & Fl & Ll).
      rewrite Ek. simpl. rewrite El. simpl. exists ((k, vk) :: l).
      split; [reflexivity|]. split; [simpl; congruence|].
      intros n v [E|Hin]; [injection E as <- <-; assumption|auto]. }
  apply G. intros n Hin. apply dict_lookup_bound. now apply keys_spec.
Qed.

Context {Heap : Type}.
Variable item_set : V -> DictConfig.Name -> V -> Heap -> outcome Heap.
Variable item_set_tuple : V -> list DictConfig.Name -> V -> Heap -> outcome Heap.
Variable item_get : V -> DictConfig.Name -> Heap -> outcome V.
Variable item_get_tuple : V -> list DictConfig.Name -> Heap -> outcome V.

Lemma contains_parent a p n :
  DictConfig.contains (a :: p) n = false -> DictConfig.contains p n = false.
Proof.
  intros C. destruct (DictConfig.contains p n) eqn:Cp; [|reflexivity].
  apply contains_lookup, dict_lookup_bound in Cp.
  destruct Cp as (a' & Ha' & Hin).
  assert (T : DictConfig.contains (a :: p) n = true).
  { apply contains_lookup, dict_lookup_bound.
    exists a'. split; [now right|assumption]. }
  congruence.
Qed.

(** Item assignment with a plain name binds it here.  With a tuple key
    whose head is bound nowhere in the chain it raises [KeyError], however
    long the chain: each config hands the key to its parent and the root
    raises.  With a one-part tuple whose head is bound somewhere in the
    chain it binds the head in the config itself, hiding the ancestor's
    binding and leaving the ancestors as they were.  An empty tuple has no
    head.  None of these touches what the stored objects hold. *)
Theorem dict_setitem_tuple c n (k0 : DictConfig.Name) rest v (h : Heap) :
  DictConfig.setitem item_set item_set_tuple c (DictConfig.DName n) v h
    = Return (DictConfig.configure n v c, h) /\
  DictConfig.setitem item_set item_set_tuple c (DictConfig.DTuple []) v h
    = Raise IndexError /\
  (DictConfig.contains c k0 = false ->
   DictConfig.setitem item_set item_set_tuple c (DictConfig.DTuple (k0 :: rest)) v h
     = Raise KeyError) /\
  (DictConfig.contains c k0 = true ->
   exists c', DictConfig.setitem item_set item_set_tuple c (DictConfig.DTuple [k0]) v h
                = Return (c', h) /\
              DictConfig.lookup c' k0 = Return v /\ tl c' = tl c /\
              forall n', n' <> k0 -> DictConfig.lookup c' n' = DictConfig.lookup c n').
Proof.
  split; [reflexivity|]. split; [reflexivity|]. split.
  - simpl. induction c as [|a p IH]; intros C; simpl; [reflexivity|].
    rewrite C. rewrite (IH (contains_parent a p k0 C)). reflexivity.
  - intros C. destruct c as [|a p]; [discriminate|].
    exists (DictConfig.configure k0 v (a :: p)).
    destruct (configure_binds a p k0 v) as (L & O).
    split; [simpl; now rewrite C|]. split; [exact L|]. split; [reflexivity|exact O].
Qed.


End ScopeChain.

(** ** Python strings as stored values *)

Module StrValue.

Definition str_bool (s : string) : bool :=
  match s with EmptyString => false | _ => true end.

(** Iterating a [str] yields its characters as one-character strings. *)
Definition str_iter (s : string) : outcome (list string) :=
  Return (map (fun c => String c EmptyString) (list_ascii_of_string s)).

(** [s[i]]: a negative index counts from the end. *)
Definition str_getitem (s : string) (i : Z) : outcome string :=
  let n := Z.of_nat (String.length s) in
  let j := if i <? 0 then i + n else i in
  if (0 <=? j) && (j <? n) then
    match String.get (Z.to_nat j) s with
    | Some c => Return (String c EmptyString)
    | None => Raise IndexError
    end
  else Raise IndexError.

Lemma ascii_compare_refl (a : ascii) : Ascii.compare a a = Eq.
Proof. unfold Ascii.compare. apply N.compare_refl. Qed.

Lemma compare_refl (s : string) : String.compare s s = Eq.
Proof.
  induction s as [|a s IH]; simpl; [reflexivity|].
  now rewrite ascii_compare_refl.
Qed.

Lemma ascii_compare_trans (a b c : ascii) :
  Ascii.compare a b = Lt -> Ascii.compare b c = Lt -> Ascii.compare a c = Lt.
Proof.
  unfold Ascii.compare. rewrite !N.compare_lt_iff. apply N.lt_trans.
Qed.

Lemma compare_lt_trans (x : string) :
  forall y z, String.compare x y = Lt -> String.compare y z = Lt ->
              String.compare x z = Lt.
Proof.
  induction x as [|a x IH]; intros [|b y] [|c z]; simpl; try congruence.
  destruct (Ascii.compare a b) eqn:Hab; try discriminate;
    destruct (Ascii.compare b c) eqn:Hbc; try discriminate; intros Hxy Hyz.
  - apply Ascii.compare_eq_iff in Hab, Hbc. subst.
    rewrite ascii_compare_refl. eauto.
  - apply Ascii.compare_eq_iff in Hab. subst. now rewrite Hbc.
  - apply Ascii.compare_eq_iff in Hbc. subst. now rewrite Hab.
  - now rewrite (ascii_compare_trans _ _ _ Hab Hbc).
Qed.

Lemma ltb_total (x y : string) :
  String.ltb x y = false -> String.ltb y x = false -> x = y.
Proof.
  unfold String.ltb. rewrite (String.compare_antisym x y).
  destruct (String.compare y x) eqn:E; simpl; try discriminate.
  intros _ _. symmetry. now apply String.compare_eq_iff.
Qed.

Lemma ltb_irrefl (x : string) : String.ltb x x = false.
Proof. unfold String.ltb. now rewrite compare_refl. Qed.

Lemma ltb_trans (x y z : string) :
  String.ltb x y = true -> String.ltb y z = true -> String.ltb x z = true.
Proof.
  unfold String.ltb.
  destruct (String.compare x y) eqn:E1; try discriminate.
  destruct (String.compare y z) eqn:E2; try discriminate.
  now rewrite (compare_lt_trans x y z E1 E2).
Qed.

#[global] Instance str_value : PyValue string := {|
  v_eqb := String.eqb;
  v_ltb := String.ltb;
  v_bool := str_bool;
  v_iter := str_iter;
  v_getitem := str_getitem;
  v_getitem_tuple := fun _ _ => Raise TypeError;
  v_eqb_eq := String.eqb_eq;
  v_ltb_irrefl := ltb_irrefl;
  v_ltb_trans := ltb_trans;
  v_ltb_total := ltb_total
|}.

End StrValue.

(** ** The properties at concrete configs

    The values are Python strings; iterating ["ab"] yields ["a"] and
    ["b"], so a string also serves as a short value sequence. *)

Lemma paint_overwrite_witness :
  3 < 7 /\
  lookup (KInt 5) (snd (configure (KTuple [3; 7]) "y" [mkInterval 0 10 "x"]))
  = Return (RValue "y").
Proof.
  split; [lia|].
  destruct (paint_overwrite [mkInterval 0 10 "x"] 3 7 "y" ltac:(lia))
    as [(tr' & E & _ & _ & Hin & _) _].
  rewrite E. apply Hin. lia.
Defined.

(** Where two stored intervals with different values cover a point, a paint
    elsewhere can change which of them sorts first.  A tree built with
    [[0,30) -> "a"] and [[5,25) -> "b"] answers ["a"] at 20; painting
    [(2, 10)] cuts both back to begin at 10, and [(10, 25, "b")] now sorts
    before [(10, 30, "a")]. *)
Lemma paint_overwrite_overlapping_state :
  let t0 := [mkInterval 0 30 "a"; mkInterval 5 25 "b"] in
  let r := configure (KTuple [2; 10]) "c" t0 in
  well_formed t0 /\ init t0 = Return t0 /\ 2 < 10 /\ ~ 2 <= 20 < 10 /\
  fst r = Return tt /\
  lookup (KInt 20) t0 = Return (RValue "a") /\
  lookup (KInt 20) (snd r) = Return (RValue "b") /\
  lookup (KInt 20) (snd r) <> lookup (KInt 20) t0.
Proof.
  repeat split; try reflexivity; try lia; try discriminate.
  - repeat constructor; simpl; intuition discriminate.
  - repeat constructor; simpl; lia.
Qed.

Lemma stepped_paint_no_length_check_witness :
  stepped_window ([] : t string) (KSlice (Some 0) (Some 12) (Some 3))
    = Some (0, 12, 3) /\
  0 < 3 /\ v_iter "ab" = Return ["a"; "b"] /\
  exists windows : nat,
    (forall i : nat, (i < windows)%nat <-> 0 + (Z.of_nat i + 1) * 3 < 12) /\
    configure (KSlice (Some 0) (Some 12) (Some 3)) "ab" []
      = (Return tt, paint_in_order 0 3 ["a"; "b"] windows []).
Proof.
  split; [reflexivity|]. split; [lia|]. split; [reflexivity|].
  destruct (proj1 (@stepped_paint_no_length_check string StrValue.str_value []
                     (KSlice (Some 0) (Some 12) (Some 3)) 0 12 3 "ab" ["a"; "b"]
                     eq_refl ltac:(lia) eq_refl))
    as (windows & Hw & E & _).
  exists windows. split; [exact Hw|exact E].
Defined.

(** A value sequence shorter than the number of sub-windows raises nothing
    and the windows it does reach are painted. *)
Lemma stepped_paint_short_sequence_returns :
  v_iter "ab" = Return ["a"; "b"] /\
  configure (KTuple [0; 9; 3]) "ab" [] =
    (Return tt, [mkInterval 3 6 "b"; mkInterval 0 3 "a"]) /\
  v_iter "a" = Return ["a"] /\
  configure (KTuple [0; 9; 3]) "a" [] = (Return tt, [mkInterval 0 3 "a"]) /\
  [mkInterval 0 3 "a"] <> ([] : t string).
Proof. repeat split; try reflexivity. discriminate. Qed.

Lemma stepped_paint_misses_last_window_witness :
  v_iter "abc" = Return ["a"; "b"; "c"] /\
  fst (configure (KTuple [0; 9; 3]) "abc" []) = Return tt /\
  lookup (KInt 7) (snd (configure (KTuple [0; 9; 3]) "abc" [])) = Raise KeyError.
Proof.
  split; [reflexivity|].
  destruct (@stepped_paint_misses_last_window string StrValue.str_value
              "abc" "a" "b" "c" eq_refl)
    as (E & _ & Hgap).
  split; [exact E|]. apply Hgap. lia.
Defined.

Lemma delete_creates_gap_witness :
  3 <= 7 /\
  exists tr', delete (KTuple [3; 7]) [mkInterval 0 10 "x"] = (Return tt, tr') /\
              lookup (KInt 5) tr' = Raise KeyError.
Proof.
  split; [lia|].
  destruct (delete_creates_gap [mkInterval 0 10 "x"] 3 7 ltac:(lia))
    as [(tr' & E & _ & _ & Hgap) _].
  exists tr'. split; [exact E|]. apply Hgap. lia.
Defined.

(** With a reversed window the coverage outside it is not kept.  [delete]
    makes no check of the key: for [(8, 3)] the interval [[5,10) -> "x"],
    which contains 8, is cut back to [[5,8)], although no point lies in
    the window; the point 9 was covered and is covered no more. *)
Lemma delete_reversed_window_loses_coverage :
  let t0 := [mkInterval 5 10 "x"] in
  let r := delete (KTuple [8; 3]) t0 in
  well_formed t0 /\ init t0 = Return t0 /\ ~ 8 <= 9 < 3 /\
  r = (Return tt, [mkInterval 5 8 "x"]) /\
  lookup (KInt 9) t0 = Return (RValue "x") /\
  lookup (KInt 9) (snd r) = Raise KeyError /\
  ~ (forall p w, covers (snd r) p w <-> covers t0 p w /\ ~ 8 <= p < 3).
Proof.
  repeat split; try reflexivity; try lia.
  - repeat constructor; simpl; intuition discriminate.
  - repeat constructor; simpl; lia.
  - intros Hall.
    assert (C : covers (snd (delete (KTuple [8; 3]) [mkInterval 5 10 "x"])) 9 "x").
    { apply Hall. split; [|lia].
      exists (mkInterval 5 10 "x"). simpl. repeat split; auto; lia. }
    destruct C as (iv & [<-|[]] & Hp & _). simpl in Hp. lia.
Qed.

Lemma paint_non_overlap_witness :
  3 < 7 /\
  exists tr', configure (KTuple [3; 7]) "y" [mkInterval 0 10 "x"] = (Return tt, tr') /\
              In (mkInterval 3 7 "y") tr'.
Proof.
  split; [lia|].
  destruct (paint_non_overlap [mkInterval 0 10 "x"] 3 7 "y" ltac:(lia))
    as (tr' & E & Hin & _).
  exists tr'. split; assumption.
Defined.

Lemma contains_uncovered_raises_witness :
  (forall iv, In iv [mkInterval 0 10 "x"] -> ~ begin iv <= 12 < end_ iv) /\
  contains (KInt 12) [mkInterval 0 10 "x"] = Raise KeyError.
Proof.
  assert (G : forall iv, In iv [mkInterval 0 10 "x"] -> ~ begin iv <= 12 < end_ iv).
  { intros iv [<-|[]]. simpl. lia. }
  split; [exact G|].
  exact (proj2 (contains_uncovered_raises [mkInterval 0 10 "x"] 12 G)).
Defined.

Lemma snapshot_round_trip_witness :
  let tr := snd (configure (KTuple [3; 7]) "y" (snd (configure (KTuple [0; 10]) "x" []))) in
  reachable tr /\
  exists tr', setstate (getstate tr) [] = (Return tt, tr') /\
              forall p, lookup (KInt p) tr' = lookup (KInt p) tr.
Proof.
  intros tr.
  assert (R : reachable tr) by (unfold tr; repeat constructor).
  split; [exact R|].
  destruct (snapshot_round_trip tr R) as (_ & _ & Hset & _).
  exact (Hset []).
Defined.

Lemma delete_label_noop_witness :
  label_to_key "3-7" = Return [3; 7] /\
  delete (KStr "3-7") [mkInterval 0 10 "x"] = (Return tt, [mkInterval 0 10 "x"]).
Proof.
  split; [reflexivity|].
  exact (delete_label_noop [mkInterval 0 10 "x"] "3-7" [3; 7] eq_refl).
Defined.

(** The same expression [bool(self[key])] has two more effects: a covered
    point whose value is falsy tests [False], and a 2-tuple is taken by
    [__getitem__] for a composite key, so the second item subscripts the
    value found at the first. *)
Example contains_falsy_and_composite :
  lookup (KInt 5) [mkInterval 0 10 ""] = Return (RValue "") /\
  contains (KInt 5) [mkInterval 0 10 ""] = Return false /\
  lookup (KTuple [0; 10]) [mkInterval 0 10 "x"] = Return (RValue "x") /\
  contains (KTuple [0; 10]) [mkInterval 0 10 "x"] = Raise IndexError /\
  contains (KTuple [5; 0]) [mkInterval 0 10 "x"] = Return true.
Proof. repeat split; reflexivity. Qed.

(** ** Further properties at concrete configs *)

Lemma disjoint_paints_commute_witness :
  0 < 3 /\ 5 < 8 /\ (3 <= 5 \/ 8 <= 0) /\
  lookup (KInt 6)
    (snd (configure (KTuple [5; 8]) "b" (snd (configure (KTuple [0; 3]) "a" []))))
  = lookup (KInt 6)
    (snd (configure (KTuple [0; 3]) "a" (snd (configure (KTuple [5; 8]) "b" [])))).
Proof.
  split; [lia|]. split; [lia|]. split; [left; lia|].
  pose proof (disjoint_paints_commute ([] : t string) 0 3 "a" 5 8 "b"
                ltac:(lia) ltac:(lia) ltac:(left; lia)) as P.
  cbv zeta in P. destruct P as (_ & _ & Hb & _).
  destruct (Hb 6 ltac:(lia)) as [E1 E2]. now rewrite E1, E2.
Defined.

Lemma ten_x_well_formed : well_formed [mkInterval 0 10 "x"].
Proof.
  split.
  - constructor; [simpl; tauto|constructor].
  - constructor; [simpl; lia|constructor].
Defined.

Lemma delete_undoes_paint_witness :
  well_formed [mkInterval 0 10 "x"] /\ 3 < 7 /\
  forall p,
    lookup (KInt p)
      (snd (delete (KTuple [3; 7])
              (snd (configure (KTuple [3; 7]) "y" [mkInterval 0 10 "x"]))))
    = lookup (KInt p) (snd (delete (KTuple [3; 7]) [mkInterval 0 10 "x"])).
Proof.
  split; [exact ten_x_well_formed|]. split; [lia|].
  pose proof (delete_undoes_paint [mkInterval 0 10 "x"] 3 7 "y"
                ten_x_well_formed ltac:(lia)) as P.
  cbv zeta in P. exact (proj2 P).
Defined.

Lemma delete_idempotent_witness :
  well_formed [mkInterval 0 10 "x"] /\ 3 <= 7 /\
  forall iv,
    In iv (snd (delete (KTuple [3; 7]) (snd (delete (KTuple [3; 7]) [mkInterval 0 10 "x"]))))
    <-> In iv (snd (delete (KTuple [3; 7]) [mkInterval 0 10 "x"])).
Proof.
  split; [exact ten_x_well_formed|]. split; [lia|].
  pose proof (delete_idempotent [mkInterval 0 10 "x"] 3 7
                ten_x_well_formed ltac:(lia)) as P.
  cbv zeta in P. exact (proj1 P).
Defined.

Lemma delete_keeps_invariants_witness :
  3 <= 7 /\ well_formed (snd (delete (KTuple [3; 7]) [mkInterval 0 10 "x"])).
Proof.
  split; [lia|].
  pose proof (delete_keeps_invariants [mkInterval 0 10 "x"] 3 7 ltac:(lia)) as P.
  cbv zeta in P. exact (proj2 P ten_x_well_formed).
Defined.

Lemma configure_null_window_witness :
  well_formed [mkInterval 0 10 "x"] /\ 5 <= 5 /\
  configure (KTuple [5; 5]) "y" [mkInterval 0 10 "x"]
  = (Raise ValueError, [mkInterval 5 10 "x"; mkInterval 0 5 "x"]).
Proof.
  split; [exact ten_x_well_formed|]. split; [lia|].
  exact (proj1 (configure_null_window [mkInterval 0 10 "x"] 5 5 "y"
                  ten_x_well_formed ltac:(lia))).
Defined.

Lemma label_key_is_pair_key_witness :
  0 <= 3 /\ 0 <= 7 /\ key_to_label [3; 7] = Return "3-7" /\
  lookup (KStr "3-7") [mkInterval 0 10 "x"] = lookup (KTuple [3; 7]) [mkInterval 0 10 "x"].
Proof.
  split; [lia|]. split; [lia|]. split; [reflexivity|].
  exact (proj2 (label_key_is_pair_key [mkInterval 0 10 "x"] 3 7 "y" "3-7"
                  ltac:(lia) ltac:(lia) eq_refl)).
Defined.

Lemma negative_step_never_paints_witness :
  well_formed [mkInterval 0 10 "x"] /\ -3 < 0 /\ v_iter "ab" = Return ["a"; "b"] /\
  fst (configure (KTuple [9; 0; -3]) "ab" [mkInterval 0 10 "x"]) = Raise ValueError.
Proof.
  split; [exact ten_x_well_formed|]. split; [lia|]. split; [reflexivity|].
  pose proof (@negative_step_never_paints string StrValue.str_value
                [mkInterval 0 10 "x"] 9 0 (-3) "ab" ["a"; "b"]
                ten_x_well_formed ltac:(lia) eq_refl) as P.
  cbv zeta in P. destruct P as (_ & _ & Hr). apply Hr; [lia|discriminate].
Defined.

Lemma slice_query_clips_witness :
  well_formed [mkInterval 0 10 "x"] /\
  exists clipped,
    lookup (KSlice (Some 3) (Some 7) None) [mkInterval 0 10 "x"]
    = Return (RIntervals clipped) /\
    Forall (fun c => 3 <= begin c /\ end_ c <= 7 /\ begin c < end_ c) clipped.
Proof.
  split; [exact ten_x_well_formed|].
  pose proof (slice_query_clips [mkInterval 0 10 "x"] (Some 3) (Some 7)
                ten_x_well_formed) as P.
  cbv zeta in P. destruct P as (clipped & E & F & _).
  exists clipped. split; [exact E|exact F].
Defined.

Lemma to_label_dict_decodes_witness :
  Forall (fun iv => 0 <= begin iv /\ 0 <= end_ iv) [mkInterval 0 10 "x"] /\
  forall label v, In (label, v) (IntervalViews.to_label_dict [mkInterval 0 10 "x"]) ->
    exists iv, In iv [mkInterval 0 10 "x"] /\ v = data iv /\
               key_to_label [begin iv; end_ iv] = Return label /\
               label_to_key label = Return [begin iv; end_ iv].
Proof.
  assert (N : Forall (fun iv => 0 <= begin iv /\ 0 <= end_ iv) [mkInterval 0 10 "x"])
    by (repeat constructor; simpl; lia).
  split; [exact N|].
  exact (proj1 (to_label_dict_decodes [mkInterval 0 10 "x"] N)).
Defined.

